(** * Corpus store, text chunker and retrieval pipeline of the
      vector-database lecture scripts

    Shallow embedding of [exemplo_audio_embeddings.py] (class
    [AudioEmbeddingSystem]) and [exemplo_rag_sistema.py] (class
    [SistemaRAG]), and the properties their specification states.

    The embedding model ([SentenceTransformer.encode]) and the metric are
    parameters of the development. The flat index ([faiss.IndexFlatL2]) is an
    external library: it is modelled by the behaviour its Python binding
    documents. Floating-point numbers are idealised as exact rationals;
    console output is left out. *)

From Stdlib Require Import QArith.
From stdpp Require Import gmap strings list sorting.

Local Open Scope Z_scope.

(** * Part I: the program *)

(** ** Python strings

    A Python [str] is a sequence of Unicode code points; [len] counts code
    points and [+] is concatenation. *)

Definition char := N.
Definition str := list char.

(** A literal of the source, for texts of ASCII characters. *)
Definition py (s : string) : str :=
  Ascii.N_of_ascii <$> String.list_ascii_of_string s.

(** [str.isspace] on one code point: the characters [str.strip()] removes. *)
Definition is_space (c : char) : bool :=
  ((9 <=? c) && (c <=? 13) || (28 <=? c) && (c <=? 32)
   || (c =? 133) || (c =? 160) || (c =? 5760)
   || (8192 <=? c) && (c <=? 8202)
   || (c =? 8232) || (c =? 8233) || (c =? 8239) || (c =? 8287)
   || (c =? 12288))%N.

(** The character class [[.!?]] of the sentence pattern. *)
Definition is_terminal (c : char) : bool :=
  ((c =? 46) || (c =? 33) || (c =? 63))%N.

Fixpoint lstrip (s : str) : str :=
  match s with
  | c :: s' => if is_space c then lstrip s' else s
  | [] => []
  end.

Definition rstrip (s : str) : str := rev (lstrip (rev s)).

Definition strip (s : str) : str := rstrip (lstrip s).

(** [re.split(r'[.!?]+', texto)]: the pieces of [texto] between the maximal
    runs of sentence punctuation, the empty pieces before a leading run and
    after a trailing run included. *)
Fixpoint re_split (s : str) : list str :=
  match s with
  | [] => [[]]
  | c :: s' =>
      if is_terminal c then
        match s' with
        | c' :: _ => if is_terminal c' then re_split s' else [] :: re_split s'
        | [] => [] :: re_split s'
        end
      else
        match re_split s' with
        | p :: ps => (c :: p) :: ps
        | [] => [[c]]
        end
  end.

(** ** Python values, exceptions and objects *)

Inductive pyval :=
  | PyNone
  | PyInt (n : Z)
  | PyFloat (q : Q)
  | PyStr (s : str).

(** A [dict] with string keys. *)
Abbreviation dict := (gmap string pyval).

(** Dictionaries are objects: a variable holds a reference, and two
    references to one dictionary see each other's writes. *)
Definition loc := positive.
Abbreviation heap := (gmap loc (gmap string pyval)).

(** [d = {}] *)
Definition novo_dict (σ : heap) : heap * loc :=
  let l := fresh (dom σ) in (<[l := ∅]> σ, l).

(** [k in d], for the dictionary [l] refers to. *)
Definition dict_contem (σ : heap) (l : loc) (k : string) : bool :=
  bool_decide (is_Some ((σ !!! l : gmap string pyval) !! k)).

(** [d[k] = v] *)
Definition dict_atribuir (σ : heap) (l : loc) (k : string) (v : pyval) : heap :=
  alter (<[k := v]>) l σ.

Inductive exn :=
  | ValueError (msg : string)
  | AssertionError
  | IndexError.

Inductive res (A : Type) :=
  | Ok (a : A)
  | Raise (e : exn).
Arguments Ok {A} a.
Arguments Raise {A} e.

#[global] Instance res_ret : MRet res := @Ok.
#[global] Instance res_bind : MBind res := λ A B f m,
  match m with Ok a => f a | Raise e => Raise e end.

(** [l[i]] for a list and an integer: negative indices count from the end,
    anything outside the list raises [IndexError]. *)
Definition py_index {A} (l : list A) (i : Z) : res A :=
  let j := if i <? 0 then i + Z.of_nat (length l) else i in
  if j <? 0 then Raise IndexError
  else match l !! Z.to_nat j with
       | Some x => Ok x
       | None => Raise IndexError
       end.

(** [enumerate(l)] *)
Definition enumerate {A} (l : list A) : list (Z * A) :=
  imap (λ i x, (Z.of_nat i, x)) l.

(** [sep.join(l)] *)
Fixpoint str_join (sep : str) (l : list str) : str :=
  match l with
  | [] => []
  | x :: l' =>
      match l' with
      | [] => x
      | _ :: _ => x ++ sep ++ str_join sep l'
      end
  end.

(** ** The chunker, [SistemaRAG._dividir_em_chunks] *)

Module Chunker.

(** State of the loop: the finished [chunks] and the buffer [chunk_atual]. *)
Record estado := Estado { chunks : list str; chunk_atual : str }.

(** [if chunk_atual: chunks.append(chunk_atual.strip())] *)
Definition salvar (e : estado) : list str :=
  match chunk_atual e with
  | [] => chunks e
  | _ :: _ => chunks e ++ [strip (chunk_atual e)]
  end.

(** One iteration of [for sentenca in sentencas]. *)
Definition passo (tamanho_chunk : Z) (e : estado) (sentenca : str) : estado :=
  let sentenca := strip sentenca in
  match sentenca with
  | [] => e
  | _ :: _ =>
      if Z.of_nat (length (chunk_atual e ++ sentenca)) <? tamanho_chunk
      then Estado (chunks e) (chunk_atual e ++ sentenca ++ py ". ")
      else Estado (salvar e) (sentenca ++ py ". ")
  end.

Definition _dividir_em_chunks (texto : str) (tamanho_chunk : Z) : list str :=
  salvar (fold_left (passo tamanho_chunk) (re_split texto) (Estado [] [])).

End Chunker.

(** ** The flat index, [faiss.IndexFlatL2]

    External library. The model follows the documented behaviour of its
    Python binding: [search(x, k)] asserts [k > 0]; for each query row it
    returns exactly [k] distances and [k] labels, nearest first; when the
    index holds fewer than [k] vectors the missing places carry the label
    [-1] and the largest float as distance. *)

Module faiss.
Section index.
Context {vec : Type} (l2 : vec → vec → Q).

(** The stored rows; the label of a row is its position. *)
Definition IndexFlatL2 := list vec.

Definition FLT_MAX : Q := 340282346638528859811704183484516925440.

(** Order of the answer: by distance, ties by label. *)
Definition hit_leb (a b : Q * Z) : bool :=
  negb (Qle_bool b.1 a.1) || (Qle_bool a.1 b.1 && (a.2 <=? b.2)).

Definition hit_le (a b : Q * Z) : Prop := hit_leb a b = true.

#[global] Instance hit_le_dec a b : Decision (hit_le a b) :=
  decide (hit_leb a b = true).

Definition knn (xb : IndexFlatL2) (k : nat) (q : vec) : list (Q * Z) :=
  let hits := take k (merge_sort hit_le (imap (λ i v, (l2 q v, Z.of_nat i)) xb)) in
  hits ++ replicate (k - length hits) (FLT_MAX, -1).

(** [D, I = index.search(x, k)]: two arrays of shape [(len(x), k)]. *)
Definition search (xb : IndexFlatL2) (x : list vec) (k : Z)
    : res (list (list Q) * list (list Z)) :=
  if k <=? 0 then Raise AssertionError
  else
    let rows := knn xb (Z.to_nat k) <$> x in
    Ok ((λ r, r.*1) <$> rows, (λ r, r.*2) <$> rows).

End index.
End faiss.

(** ** [AudioEmbeddingSystem] *)

Module Audio.
Section sistema.
Context {vec : Type} (encode : list str → list vec) (l2 : vec → vec → Q).

(** The attributes of [self]. [metadados] holds references: the list
    stores the dictionaries it is given, not copies. *)
Record AudioEmbeddingSystem := Sistema {
  transcricoes : list str;
  metadados : list loc;
  indice : option (list vec)
}.

(** [__init__] *)
Definition init : AudioEmbeddingSystem := Sistema [] [] None.

(** [adicionar_transcricao(transcricao, metadados=None)], with [agora] the
    value of [datetime.now().isoformat()]. The function has no [return]
    statement: its value is [None]. *)
Definition adicionar_transcricao (agora : str) (transcricao : str)
    (metadados_arg : option loc) (σ : heap) (self : AudioEmbeddingSystem)
    : heap * AudioEmbeddingSystem * pyval :=
  let '(σ, m) :=
    match metadados_arg with
    | None => novo_dict σ
    | Some m => (σ, m)
    end in
  let σ :=
    if dict_contem σ m "timestamp" then σ
    else dict_atribuir σ m "timestamp" (PyStr agora) in
  let σ := dict_atribuir σ m "id" (PyInt (Z.of_nat (length (transcricoes self)))) in
  (σ,
   Sistema (transcricoes self ++ [transcricao]) (metadados self ++ [m])
           (indice self),
   PyNone).

(** A call of [adicionar_transcricao], and a program that makes a sequence
    of such calls on one system. *)
Record chamada := Chamada {
  c_agora : str;
  c_transcricao : str;
  c_metadados : option loc
}.

Definition chamar (st : heap * AudioEmbeddingSystem) (c : chamada)
    : heap * AudioEmbeddingSystem :=
  (adicionar_transcricao (c_agora c) (c_transcricao c) (c_metadados c)
     st.1 st.2).1.

Definition executar (cs : list chamada) (σ : heap) (self : AudioEmbeddingSystem)
    : heap * AudioEmbeddingSystem :=
  fold_left chamar cs (σ, self).

Definition sem_transcricoes : exn :=
  ValueError "Nenhuma transcrição foi adicionada".

Definition sem_indice : exn :=
  ValueError "Índice não foi criado. Execute criar_indice() primeiro".

(** [criar_indice()]: a new index over the embeddings of all the
    transcriptions, in store order. *)
Definition criar_indice (self : AudioEmbeddingSystem) : res AudioEmbeddingSystem :=
  match transcricoes self with
  | [] => Raise sem_transcricoes
  | _ :: _ =>
      let embeddings := encode (transcricoes self) in
      Ok (Sistema (transcricoes self) (metadados self) (Some embeddings))
  end.

(** One entry of [resultados]; [r_metadados] is the stored reference. *)
Record resultado := Resultado {
  posicao : Z;
  transcricao : str;
  r_metadados : loc;
  distancia : Q;
  similaridade : Q
}.

(** The body of [for i, (distancia, idx) in enumerate(zip(...))]. *)
Definition montar (self : AudioEmbeddingSystem) (item : Z * (Q * Z)) : res resultado :=
  let '(i, (distancia, idx)) := item in
  t ← py_index (transcricoes self) idx;
  m ← py_index (metadados self) idx;
  mret (Resultado (i + 1) t m distancia (1 / (1 + distancia))%Q).

(** [buscar_transcricoes(consulta, k=5)] *)
Definition buscar_transcricoes (self : AudioEmbeddingSystem) (consulta : str)
    (k : Z) : res (list resultado) :=
  match indice self with
  | None => Raise sem_indice
  | Some indice =>
      let embedding_consulta := encode [consulta] in
      '(distancias, indices) ← faiss.search l2 indice embedding_consulta k;
      d0 ← py_index distancias 0;
      i0 ← py_index indices 0;
      mapM (montar self) (enumerate (zip d0 i0))
  end.

(** [r['metadados'].get('falante') == falante_alvo]: the stored dictionary
    is read through its reference; a missing key gives [None], which equals
    no string. *)
Definition do_falante (σ : heap) (falante_alvo : str) (r : resultado) : bool :=
  match (σ !!! r_metadados r : gmap string pyval) !! "falante" with
  | Some (PyStr s) => bool_decide (s = falante_alvo)
  | _ => false
  end.

(** The comprehension of [exemplo_busca_por_falante]:
    [[r for r in resultados if r['metadados'].get('falante') == falante_alvo]]. *)
Definition resultados_filtrados (σ : heap) (falante_alvo : str)
    (resultados : list resultado) : list resultado :=
  filter (λ r, do_falante σ falante_alvo r = true) resultados.

End sistema.
End Audio.

(** ** [SistemaRAG]

    This class never writes to a dictionary it was given and builds a new
    dictionary for every chunk, so its dictionaries are modelled by their
    contents. *)

Module RAG.
Section sistema.
Context {vec : Type} (encode : list str → list vec) (l2 : vec → vec → Q).

(** An entry of [self.documentos]. *)
Record documento := Documento {
  doc_id : Z;
  doc_titulo : str;
  doc_texto : str;
  doc_metadados : gmap string pyval
}.

Record SistemaRAG := Sistema {
  documentos : list documento;
  chunks : list str;
  metadados : list (gmap string pyval);
  indice : option (list vec)
}.

(** [__init__] *)
Definition init : SistemaRAG := Sistema [] [] [] None.

(** [{'doc_id': doc_id, 'chunk_id': i, 'titulo': titulo, **metadados}]:
    the keys of [metadados] are written last and win. *)
Definition chunk_metadados (doc_id : Z) (i : Z) (titulo : str)
    (metadados_arg : gmap string pyval) : gmap string pyval :=
  metadados_arg ∪
    <["titulo" := PyStr titulo]>
      (<["chunk_id" := PyInt i]> (<["doc_id" := PyInt doc_id]> ∅)).

(** The body of [for i, chunk in enumerate(chunks_doc)]. *)
Definition anexar (doc_id : Z) (titulo : str) (metadados_arg : gmap string pyval)
    (self : SistemaRAG) (item : Z * str) : SistemaRAG :=
  let '(i, chunk) := item in
  Sistema (documentos self) (chunks self ++ [chunk])
          (metadados self ++ [chunk_metadados doc_id i titulo metadados_arg])
          (indice self).

(** [adicionar_documento(texto, titulo="", metadados=None)]; the chunker is
    called with its default size. *)
Definition adicionar_documento (texto : str) (titulo : str)
    (metadados_arg : option (gmap string pyval)) (self : SistemaRAG) : SistemaRAG :=
  let metadados_arg := default ∅ metadados_arg in
  let chunks_doc := Chunker._dividir_em_chunks texto 500 in
  let doc_id := Z.of_nat (length (documentos self)) in
  let self :=
    Sistema (documentos self ++ [Documento doc_id titulo texto metadados_arg])
            (chunks self) (metadados self) (indice self) in
  fold_left (anexar doc_id titulo metadados_arg) (enumerate chunks_doc) self.

(** A call of [adicionar_documento], and a program that makes a sequence
    of such calls on one system. *)
Record chamada := Chamada {
  c_texto : str;
  c_titulo : str;
  c_metadados_arg : option (gmap string pyval)
}.

Definition chamar (self : SistemaRAG) (c : chamada) : SistemaRAG :=
  adicionar_documento (c_texto c) (c_titulo c) (c_metadados_arg c) self.

Definition executar (cs : list chamada) (self : SistemaRAG) : SistemaRAG :=
  fold_left chamar cs self.

Definition sem_documentos : exn :=
  ValueError "Nenhum documento foi adicionado".

Definition sem_indice : exn :=
  ValueError "Índice não foi criado. Execute criar_indice() primeiro".

(** [criar_indice()] *)
Definition criar_indice (self : SistemaRAG) : res SistemaRAG :=
  match chunks self with
  | [] => Raise sem_documentos
  | _ :: _ =>
      let embeddings := encode (chunks self) in
      Ok (Sistema (documentos self) (chunks self) (metadados self)
                  (Some embeddings))
  end.

(** One entry of [contexto]. *)
Record contexto_item := Item {
  chunk : str;
  c_metadados : gmap string pyval;
  distancia : Q;
  similaridade : Q
}.

(** The body of [for distancia, idx in zip(...)]. *)
Definition montar (self : SistemaRAG) (item : Q * Z) : res contexto_item :=
  let '(distancia, idx) := item in
  c ← py_index (chunks self) idx;
  m ← py_index (metadados self) idx;
  mret (Item c m distancia (1 / (1 + distancia))%Q).

(** [recuperar_contexto(pergunta, k=5)] *)
Definition recuperar_contexto (self : SistemaRAG) (pergunta : str) (k : Z)
    : res (list contexto_item) :=
  match indice self with
  | None => Raise sem_indice
  | Some indice =>
      let embedding_pergunta := encode [pergunta] in
      '(distancias, indices) ← faiss.search l2 indice embedding_pergunta k;
      d0 ← py_index distancias 0;
      i0 ← py_index indices 0;
      mapM (montar self) (zip d0 i0)
  end.

(** [gerar_resposta(pergunta, contexto)]: the template of the source, with
    the first 500 characters of the joined chunks. *)
Definition gerar_resposta (pergunta : str) (contexto : list contexto_item) : str :=
  let texto_contexto := str_join [10%N; 10%N] (chunk <$> contexto) in
  [10%N]
  ++ py "Baseado no contexto fornecido, posso responder sua pergunta sobre "
  ++ [34%N] ++ pergunta ++ [34%N] ++ py ":" ++ [10%N; 10%N]
  ++ take 500 texto_contexto ++ py "..." ++ [10%N; 10%N]
  ++ py "Esta resposta foi gerada com base nos documentos mais relevantes encontrados no banco de dados vetorial."
  ++ [10%N].

(** The dictionary [responder_pergunta] returns. *)
Record resposta_rag := Resposta {
  r_pergunta : str;
  r_contexto : list contexto_item;
  r_resposta : str;
  tempo_recuperacao : Q;
  tempo_geracao : Q;
  tempo_total : Q
}.

(** [responder_pergunta(pergunta, k=3)], with [t1 .. t4] the four readings
    of [time.time()]. *)
Definition responder_pergunta (t1 t2 t3 t4 : Q) (self : SistemaRAG)
    (pergunta : str) (k : Z) : res resposta_rag :=
  contexto ← recuperar_contexto self pergunta k;
  let tempo_recuperacao := (t2 - t1)%Q in
  let resposta := gerar_resposta pergunta contexto in
  let tempo_geracao := (t4 - t3)%Q in
  mret (Resposta pergunta contexto resposta tempo_recuperacao tempo_geracao
                 (tempo_recuperacao + tempo_geracao)%Q).

End sistema.
End RAG.

(** ** [exemplo_faiss.py] *)

Module ExemploFaiss.
Section funcoes.
Context {vec : Type} (encode : list str → list vec) (l2 : vec → vec → Q).

(** [criar_indice_faiss(embeddings)]: a flat index holding the rows. *)
Definition criar_indice_faiss (embeddings : list vec) : list vec := embeddings.

(** One entry of [resultados]. *)
Record resultado := Resultado {
  posicao : Z;
  frase : str;
  distancia : Q;
  similaridade : Q
}.

(** The body of [for i, (distancia, idx) in enumerate(zip(...))]. *)
Definition montar (frases : list str) (item : Z * (Q * Z)) : res resultado :=
  let '(i, (distancia, idx)) := item in
  f ← py_index frases idx;
  mret (Resultado (i + 1) f distancia (1 / (1 + distancia))%Q).

(** [buscar_similaridade(consulta, modelo, indice, frases, k=3)]; [modelo]
    is the [encode] of the section. *)
Definition buscar_similaridade (consulta : str) (indice : list vec)
    (frases : list str) (k : Z) : res (list resultado) :=
  let embedding_consulta := encode [consulta] in
  '(distancias, indices) ← faiss.search l2 indice embedding_consulta k;
  d0 ← py_index distancias 0;
  i0 ← py_index indices 0;
  mapM (montar frases) (enumerate (zip d0 i0)).

End funcoes.
End ExemploFaiss.

(** ** A toy embedding, for running the model

    Texts are embedded by their length; the metric is the squared
    difference. *)

Definition encode_len (textos : list str) : list Z :=
  (λ t, Z.of_nat (length t)) <$> textos.

Definition l2_len (a b : Z) : Q := inject_Z ((a - b) * (a - b)).

(** Two transcriptions, added without metadata at times ["t0"] and ["t1"],
    before and after [criar_indice]. *)
Definition audio_ex : heap * @Audio.AudioEmbeddingSystem Z :=
  Audio.executar
    [Audio.Chamada (py "t0") (py "gato") None;
     Audio.Chamada (py "t1") (py "cachorro") None] ∅ Audio.init.

Definition audio_ex_indexado : @Audio.AudioEmbeddingSystem Z :=
  Audio.Sistema (Audio.transcricoes audio_ex.2) (Audio.metadados audio_ex.2)
                (Some [4; 8]).

(** A dictionary of the caller's, as the example scripts build them. *)
Definition heap_ex : heap :=
  {[ 1%positive := {[ "falante" := PyStr (py "Cliente A") ]} ]}.


Definition documentos_ex : list RAG.chamada :=
  [RAG.Chamada (py "A. B.") (py "doc") None].


(** A heap where the first transcription of the example has a speaker. *)
Definition heap_ana : heap :=
  {[ 1%positive := {[ "falante" := PyStr (py "Ana") ]} ]}.

(** Two documents of one chunk each, before and after [criar_indice]. *)
Definition rag_ex : @RAG.SistemaRAG Z :=
  RAG.executar
    [RAG.Chamada (py "A.") (py "um") None;
     RAG.Chamada (py "B.") (py "dois") None] RAG.init.

Definition rag_ex_indexado : @RAG.SistemaRAG Z :=
  RAG.Sistema (RAG.documentos rag_ex) (RAG.chunks rag_ex)
              (RAG.metadados rag_ex) (Some [2; 2]).


(** * Part II: vocabulary of the specification *)

(** ** Sentences and groups of sentences *)

(** The non-empty trimmed sentences of a text, in order. *)
Definition sentencas (texto : str) : list str :=
  filter (λ s : str, s ≠ []) (strip <$> re_split texto).

(** A run of sentences as the buffer holds it, each followed by [". "]. *)
Definition juntar (g : list str) : str :=
  concat ((λ s, s ++ py ". ") <$> g).

(** The chunk a group of sentences is saved as. *)
Definition chunk_de (g : list str) : str := strip (juntar g).

(** No leading whitespace. *)
Definition sem_inicio (s : str) : Prop :=
  match s with c :: _ => is_space c = false | [] => True end.

(** A sentence as the loop sees it after [strip] and the emptiness test:
    non-empty, trimmed, free of sentence punctuation. *)
Definition frase (s : str) : Prop :=
  s ≠ [] ∧ strip s = s ∧ Forall (λ c, is_terminal c = false) s.

(** The bound a group keeps: its buffer, two separator characters
    included, is within [T + 1] (so the saved chunk is within [T]), or the
    group is one sentence of length [T] or more. *)
Definition tamanho_ok (T : Z) (g : list str) : Prop :=
  Z.of_nat (length (juntar g)) ≤ T + 1
  ∨ ∃ s, g = [s] ∧ T ≤ Z.of_nat (length s).

Definition grupo_ok (T : Z) (g : list str) : Prop :=
  g ≠ [] ∧ Forall frase g ∧ tamanho_ok T g.

(** Invariant of the chunker's loop, with [gs] the groups saved so far and
    [g] the group in the buffer. *)
Record inv (T : Z) (gs : list (list str)) (g : list str) : Prop := Inv {
  inv_gs : Forall (grupo_ok T) gs;
  inv_g : Forall frase g;
  inv_tam : g ≠ [] → tamanho_ok T g
}.

(** ** Metadata records *)

(** [d] with the creation time under ['timestamp'] unless it has one. *)
Definition com_timestamp (agora : str) (d : gmap string pyval) : gmap string pyval :=
  match d !! "timestamp" with
  | Some _ => d
  | None => <["timestamp" := PyStr agora]> d
  end.

(** The record [adicionar_transcricao] leaves in the dictionary [d] when
    [n] transcriptions are stored. *)
Definition registro (agora : str) (n : nat) (d : gmap string pyval) : gmap string pyval :=
  <["id" := PyInt (Z.of_nat n)]> (com_timestamp agora d).



(** What the invariant keeps for documents: parallel lists, and no ['id']
    in a chunk's record except one the caller supplied with the document. *)
Definition chunks_em_paralelo {vec} (self : @RAG.SistemaRAG vec) : Prop :=
  length (RAG.chunks self) = length (RAG.metadados self)
  ∧ Forall (λ r : gmap string pyval,
        ∃ doc, doc ∈ RAG.documentos self
               ∧ r !! "id" = RAG.doc_metadados doc !! "id")
      (RAG.metadados self).

(** ** Search *)

(** The rows of the index with their distance to the query and label. *)
Definition candidatos {vec} (l2 : vec → vec → Q) (xb : list vec) (q : vec)
    : list (Q * Z) :=
  imap (λ i v, (l2 q v, Z.of_nat i)) xb.

(** A result is the join of an index row with the store, the row's label
    read as a Python list index. *)
Definition juncao {vec} (self : @Audio.AudioEmbeddingSystem vec)
    (h : Q * Z) (r : Audio.resultado) : Prop :=
  py_index (Audio.transcricoes self) h.2 = Ok (Audio.transcricao r)
  ∧ py_index (Audio.metadados self) h.2 = Ok (Audio.r_metadados r)
  ∧ Audio.distancia r = h.1.

(** The errors the pipeline raises itself are [ValueError]s; the errors of
    the specification (not indexed, empty corpus, invalid argument) are
    among these. *)
Definition erro_do_pipeline (e : exn) : Prop := ∃ msg, e = ValueError msg.

(** ** States of a transcription system *)

(** The systems a program reaches from a new one by adding transcriptions
    (with any dictionary, on any heap) and building the index. *)
Inductive alcancavel {vec} (encode : list str → list vec)
    : @Audio.AudioEmbeddingSystem vec → Prop :=
  | alc_init : alcancavel encode Audio.init
  | alc_adicionar self agora t m σ :
      alcancavel encode self →
      alcancavel encode (Audio.adicionar_transcricao agora t m σ self).1.2
  | alc_criar_indice self self' :
      alcancavel encode self →
      Audio.criar_indice encode self = Ok self' →
      alcancavel encode self'.

(** What every reachable system satisfies: parallel lists, and an index no
    larger than the store, over a store that is not empty. *)
Definition coerente {vec} (self : @Audio.AudioEmbeddingSystem vec) : Prop :=
  length (Audio.transcricoes self) = length (Audio.metadados self)
  ∧ ∀ idx, Audio.indice self = Some idx →
      (0 < length idx ≤ length (Audio.transcricoes self))%nat.

(** ** The document store as a function of its documents *)

(** The records of the chunks of one document. *)
Definition registros_do_documento (d : RAG.documento) : list (gmap string pyval) :=
  imap (λ j _, RAG.chunk_metadados (RAG.doc_id d) (Z.of_nat j)
                 (RAG.doc_titulo d) (RAG.doc_metadados d))
       (Chunker._dividir_em_chunks (RAG.doc_texto d) 500).

(** The store determined by its documents: document [i] has identifier
    [i], and the chunk and metadata lists are the chunks and records of the
    documents, in order. *)
Definition determinado_pelos_documentos {vec} (self : @RAG.SistemaRAG vec) : Prop :=
  (∀ (i : nat) d, RAG.documentos self !! i = Some d → RAG.doc_id d = Z.of_nat i)
  ∧ RAG.chunks self
    = concat ((λ d, Chunker._dividir_em_chunks (RAG.doc_texto d) 500)
                <$> RAG.documentos self)
  ∧ RAG.metadados self = concat (registros_do_documento <$> RAG.documentos self).

(** The text joined from the chunks of a context. *)
Definition texto_do_contexto (contexto : list RAG.contexto_item) : str :=
  str_join [10%N; 10%N] (RAG.chunk <$> contexto).

(** A result of [buscar_transcricoes] without its metadata, as
    [buscar_similaridade] builds it. *)
Definition projetar (r : Audio.resultado) : ExemploFaiss.resultado :=
  ExemploFaiss.Resultado (Audio.posicao r) (Audio.transcricao r)
    (Audio.distancia r) (Audio.similaridade r).


(** ** Documents and the positions of their chunks *)



(** * Part III: properties *)

(** ** Trimming and splitting *)

Section strip_facts.
Implicit Types s p u : str.

Lemma lstrip_sem_inicio s : sem_inicio (lstrip s).
Proof.
  induction s as [|c s IH]; simpl; [done|].
  destruct (is_space c) eqn:Hc; [done|]. by simpl.
Qed.

Lemma lstrip_id s : sem_inicio s → lstrip s = s.
Proof. destruct s as [|c s]; simpl; [done|]. by intros ->. Qed.

Lemma lstrip_lstrip s : lstrip (lstrip s) = lstrip s.
Proof. apply lstrip_id, lstrip_sem_inicio. Qed.

Lemma lstrip_split s :
  ∃ p, s = p ++ lstrip s ∧ Forall (λ c, is_space c = true) p.
Proof.
  induction s as [|c s (p & Hp & Hsp)]; simpl.
  - by exists [].
  - destruct (is_space c) eqn:Hc.
    + exists (c :: p). split; [by rewrite Hp at 1 | by constructor].
    + by exists [].
Qed.

Lemma lstrip_app_spaces p s :
  Forall (λ c, is_space c = true) p → lstrip (p ++ s) = lstrip s.
Proof. induction 1 as [|c p Hc _ IH]; simpl; [done|]. by rewrite Hc. Qed.

Lemma rstrip_split u :
  ∃ q, u = rstrip u ++ q ∧ Forall (λ c, is_space c = true) q.
Proof.
  destruct (lstrip_split (rev u)) as (p & Hp & Hsp).
  exists (rev p). split.
  - unfold rstrip. rewrite <- rev_app_distr, <- Hp. by rewrite rev_involutive.
  - by apply Forall_rev.
Qed.

Lemma rstrip_rstrip u : rstrip (rstrip u) = rstrip u.
Proof. unfold rstrip. by rewrite rev_involutive, lstrip_lstrip. Qed.

Lemma rstrip_sem_inicio u : sem_inicio u → sem_inicio (rstrip u).
Proof.
  destruct (rstrip_split u) as (q & Hq & _).
  destruct (rstrip u) as [|c r]; [done|].
  rewrite Hq. by simpl.
Qed.

Lemma strip_sem_inicio s : sem_inicio (strip s).
Proof. apply rstrip_sem_inicio, lstrip_sem_inicio. Qed.

Lemma strip_strip s : strip (strip s) = strip s.
Proof.
  unfold strip at 1. rewrite (lstrip_id (strip s)) by apply strip_sem_inicio.
  unfold strip. apply rstrip_rstrip.
Qed.

Lemma strip_app_spaces p s :
  Forall (λ c, is_space c = true) p → strip (p ++ s) = strip s.
Proof. intros Hp. unfold strip. by rewrite lstrip_app_spaces. Qed.

(** [strip] keeps a sublist, so it keeps any property of all characters. *)
Lemma strip_Forall (P : char → Prop) s : Forall P s → Forall P (strip s).
Proof.
  intros Hs. unfold strip.
  destruct (lstrip_split s) as (p & Hp & _).
  destruct (rstrip_split (lstrip s)) as (q & Hq & _).
  rewrite Hp, Forall_app in Hs. destruct Hs as [_ Hs].
  rewrite Hq, Forall_app in Hs. by destruct Hs.
Qed.

(** Closing a buffer: the trailing space of the last [". "] goes, and
    nothing else. *)
Lemma strip_ponto u :
  sem_inicio u → strip (u ++ py ". ") = u ++ py ".".
Proof.
  intros Hu. unfold strip.
  rewrite lstrip_id by (destruct u; [done | exact Hu]).
  unfold rstrip. rewrite rev_app_distr. simpl.
  by rewrite rev_involutive.
Qed.
End strip_facts.

Section re_split_facts.
Implicit Types s p r : str.

Lemma re_split_nonempty s : re_split s ≠ [].
Proof.
  induction s as [|c s IH]; simpl; [done|].
  destruct (is_terminal c).
  - destruct s as [|c' s']; [done|]. by destruct (is_terminal c').
  - by destruct (re_split s).
Qed.

(** The pieces contain no sentence punctuation. *)
Lemma re_split_sem_pontuacao s :
  Forall (Forall (λ c, is_terminal c = false)) (re_split s).
Proof.
  induction s as [|c s IH]; simpl; [by repeat constructor|].
  destruct (is_terminal c) eqn:Hc.
  - destruct s as [|c' s']; [by repeat constructor|].
    destruct (is_terminal c'); [done | by constructor].
  - destruct (re_split s) as [|p ps]; [by repeat constructor|].
    inversion IH; subst. by repeat constructor.
Qed.

(** Characters outside the class extend the first piece. *)
Lemma re_split_app p r :
  Forall (λ c, is_terminal c = false) p →
  re_split (p ++ r) =
    match re_split r with x :: xs => (p ++ x) :: xs | [] => [p] end.
Proof.
  induction 1 as [|c p Hc _ IH]; simpl.
  - destruct (re_split r) eqn:E; [by apply re_split_nonempty in E | done].
  - rewrite Hc, IH. by destruct (re_split r).
Qed.

(** A single punctuation character followed by ordinary text ends a
    piece. *)
Lemma re_split_ponto c r :
  is_terminal c = true →
  match r with c' :: _ => is_terminal c' = false | [] => True end →
  re_split (c :: r) = [] :: re_split r.
Proof.
  intros Hc Hr. simpl. rewrite Hc.
  destruct r as [|c' r']; [done|]. by rewrite Hr.
Qed.
End re_split_facts.

(** ** The chunker's loop, by groups of sentences *)

Section chunker_facts.
Import Chunker.
Implicit Types (g : list str) (gs : list (list str)) (s p : str) (T : Z).

Lemma juntar_snoc g s : juntar (g ++ [s]) = juntar g ++ s ++ py ". ".
Proof.
  unfold juntar. rewrite fmap_app, concat_app. simpl.
  by rewrite app_nil_r.
Qed.

Lemma juntar_nil_inv g : juntar g = [] → g = [].
Proof.
  destruct g as [|s g]; [done|]. unfold juntar. simpl.
  by destruct s.
Qed.

Lemma frase_sem_inicio s : frase s → sem_inicio s.
Proof. intros (_ & <- & _). apply strip_sem_inicio. Qed.

Lemma juntar_sem_inicio g u :
  Forall frase g → sem_inicio u → sem_inicio (juntar g ++ u).
Proof.
  destruct 1 as [|s g Hs _]; [done|]. intros _.
  pose proof (frase_sem_inicio _ Hs) as Hi. destruct Hs as (Hne & _).
  unfold juntar. simpl. by destruct s.
Qed.

(** What [salvar] stores for a buffer [g ++ [s]]. *)
Lemma chunk_de_snoc g s :
  Forall frase g → frase s →
  chunk_de (g ++ [s]) = juntar g ++ s ++ py ".".
Proof.
  intros Hg Hs. unfold chunk_de. rewrite juntar_snoc.
  rewrite (app_assoc (juntar g)), strip_ponto, <- app_assoc; [done|].
  by apply juntar_sem_inicio, frase_sem_inicio.
Qed.

Lemma salvar_grupos gs g :
  salvar (Estado (chunk_de <$> gs) (juntar g))
  = chunk_de <$> (gs ++ match g with [] => [] | _ => [g] end).
Proof.
  unfold salvar. simpl.
  destruct (juntar g) eqn:Hj.
  - apply juntar_nil_inv in Hj as ->. by rewrite app_nil_r.
  - destruct g; [done|]. rewrite fmap_app. simpl.
    by rewrite <- Hj.
Qed.

Lemma strip_frase p : strip p ≠ [] →
  Forall (λ c, is_terminal c = false) p → frase (strip p).
Proof.
  intros Hne Hp. split; [done|]. split; [apply strip_strip|].
  by apply strip_Forall.
Qed.

(** One iteration keeps the invariant and appends the trimmed piece, when
    it is not empty, to the sentences consumed so far. *)
Lemma passo_inv T gs g p :
  Forall (λ c, is_terminal c = false) p →
  inv T gs g →
  ∃ gs' g',
    passo T (Estado (chunk_de <$> gs) (juntar g)) p
      = Estado (chunk_de <$> gs') (juntar g')
    ∧ inv T gs' g'
    ∧ concat gs' ++ g' = (concat gs ++ g) ++ filter (λ s, s ≠ []) [strip p].
Proof.
  intros Hp [Hgs Hg Htam]. unfold passo.
  destruct (strip p) as [|c s'] eqn:Hs.
  { exists gs, g. split; [done|]. split; [done|].
    by rewrite app_nil_r. }
  assert (frase (c :: s')) as Hfr by (rewrite <- Hs; apply strip_frase; [by rewrite Hs | done]).
  set (s := c :: s') in *. clearbody s. simpl chunk_atual. simpl chunks.
  rewrite filter_cons_True, filter_nil by apply Hfr.
  destruct (Z.ltb_spec (Z.of_nat (length (juntar g ++ s))) T) as [Hlt|Hge].
  - exists gs, (g ++ [s]). rewrite juntar_snoc. split; [done|].
    split; [|by rewrite app_assoc].
    split; [done | by apply Forall_app; split; [|constructor] |].
    intros _. left. rewrite juntar_snoc, app_assoc, length_app.
    change (length (py ". ")) with 2%nat. lia.
  - exists (gs ++ match g with [] => [] | _ => [g] end), [s].
    rewrite salvar_grupos. split.
    { f_equal. unfold juntar. simpl. by rewrite app_nil_r. }
    split.
    + split.
      * apply Forall_app. split; [done|].
        destruct g as [|s0 g0]; [done|]. constructor; [|done].
        split; [done|]. split; [done|]. by apply Htam.
      * by constructor.
      * intros _. destruct (Z.lt_ge_cases (Z.of_nat (length s)) T) as [Hs1|Hs1].
        -- left. unfold juntar. simpl. rewrite app_nil_r, length_app.
           change (length (py ". ")) with 2%nat. lia.
        -- right. by exists s.
    + rewrite concat_app. destruct g; simpl; by rewrite ?app_nil_r, <- ?app_assoc.
Qed.

Lemma fold_passo_inv T ps : ∀ gs g,
  Forall (Forall (λ c, is_terminal c = false)) ps →
  inv T gs g →
  ∃ gs' g',
    fold_left (passo T) ps (Estado (chunk_de <$> gs) (juntar g))
      = Estado (chunk_de <$> gs') (juntar g')
    ∧ inv T gs' g'
    ∧ concat gs' ++ g'
      = (concat gs ++ g) ++ filter (λ s, s ≠ []) (strip <$> ps).
Proof.
  induction ps as [|p ps IH]; intros gs g Hps Hinv.
  - exists gs, g. by rewrite app_nil_r.
  - inversion Hps as [|?? Hp Hps']; subst.
    destruct (passo_inv T gs g p Hp Hinv) as (gs1 & g1 & E1 & Hinv1 & Hc1).
    destruct (IH gs1 g1 Hps' Hinv1) as (gs2 & g2 & E2 & Hinv2 & Hc2).
    exists gs2, g2. simpl fold_left. rewrite E1, E2. split; [done|].
    split; [done|]. rewrite Hc2, Hc1, <- !app_assoc. f_equal. f_equal.
    rewrite fmap_cons. by rewrite <- filter_app.
Qed.

(** The chunks are the saved forms of consecutive, non-empty groups of the
    text's sentences. *)
Lemma dividir_grupos texto T :
  ∃ grupos,
    _dividir_em_chunks texto T = chunk_de <$> grupos
    ∧ concat grupos = sentencas texto
    ∧ Forall (grupo_ok T) grupos.
Proof.
  destruct (fold_passo_inv T (re_split texto) [] [])
    as (gs & g & E & [Hgs Hg Htam] & Hc).
  { apply re_split_sem_pontuacao. }
  { by split. }
  unfold _dividir_em_chunks. change (Estado [] []) with
    (Estado (chunk_de <$> []) (juntar [])). rewrite E, salvar_grupos.
  eexists. split; [done|]. split.
  - rewrite concat_app. cbn [concat app] in Hc. unfold sentencas.
    trans (concat gs ++ g); [|exact Hc].
    f_equal. destruct g; simpl; by rewrite ?app_nil_r.
  - apply Forall_app. split; [done|].
    destruct g as [|s0 g0]; [done|]. constructor; [|done].
    split; [done|]. split; [done|]. by apply Htam.
Qed.
End chunker_facts.

Section reler_chunks.
Import Chunker.
Implicit Types (g : list str) (s pre : str).

Lemma is_space_nao_terminal c : is_space c = true → is_terminal c = false.
Proof.
  intros Hc. unfold is_terminal.
  destruct (N.eqb_spec c 46) as [->|_]; [done|].
  destruct (N.eqb_spec c 33) as [->|_]; [done|].
  by destruct (N.eqb_spec c 63) as [->|_].
Qed.

Lemma chunk_de_um s : frase s → chunk_de [s] = s ++ py ".".
Proof. intros Hs. by apply (chunk_de_snoc [] s). Qed.

Lemma chunk_de_cons s g :
  Forall frase (s :: g) → g ≠ [] →
  chunk_de (s :: g) = s ++ py ". " ++ chunk_de g.
Proof.
  intros Hsg Hne. inversion Hsg as [|?? Hs Hg]; subst.
  destruct g as [|s' g0 _] using rev_ind; [done|].
  apply Forall_app in Hg as [Hg0 Hs']. inversion Hs'; subst.
  rewrite app_comm_cons, !chunk_de_snoc by (done || by constructor).
  unfold juntar. simpl. by rewrite <- !app_assoc.
Qed.

Lemma strip_pre_frase pre s :
  Forall (λ c, is_space c = true) pre → frase s → strip (pre ++ s) = s.
Proof. intros Hpre (_ & Hs & _). by rewrite strip_app_spaces. Qed.

(** Reading a saved chunk back with the sentence pattern gives the group
    it was built from. *)
Lemma reler_chunk g : Forall frase g → g ≠ [] → ∀ pre,
  Forall (λ c, is_space c = true) pre →
  filter (λ s : str, s ≠ []) (strip <$> re_split (pre ++ chunk_de g)) = g.
Proof.
  induction 1 as [|s g Hs Hg IH]; [done|]. intros _ pre Hpre.
  assert (Forall (λ c, is_terminal c = false) (pre ++ s)) as Hnt.
  { apply Forall_app. split; [|apply Hs].
    eapply Forall_impl; [exact Hpre|]. apply is_space_nao_terminal. }
  destruct g as [|s' g'].
  - rewrite chunk_de_um, app_assoc, re_split_app by done.
    simpl. rewrite app_nil_r, strip_pre_frase by done.
    rewrite filter_cons_True by apply Hs. done.
  - rewrite chunk_de_cons, app_assoc by (done || by constructor).
    rewrite re_split_app by done.
    change (py ". " ++ chunk_de (s' :: g'))
      with (46%N :: ([32%N] ++ chunk_de (s' :: g'))).
    rewrite re_split_ponto by done.
    rewrite app_nil_r, fmap_cons, strip_pre_frase by done.
    rewrite filter_cons_True by apply Hs. f_equal.
    apply IH; [done | by repeat constructor].
Qed.

Lemma sentencas_chunk_de g :
  Forall frase g → g ≠ [] → sentencas (chunk_de g) = g.
Proof. intros Hg Hne. by apply (reler_chunk g Hg Hne []). Qed.
End reler_chunks.

(** ** The chunker's contract *)

Section chunker_contrato.
Import Chunker.
Implicit Types (texto s : str) (T : Z).

Lemma grupo_ok_chunk T g :
  grupo_ok T g →
  Z.of_nat (length (chunk_de g)) ≤ T
  ∨ ∃ s, g = [s] ∧ chunk_de g = s ++ py "." ∧ T ≤ Z.of_nat (length s).
Proof.
  intros (Hne & Hg & [Htam|(s & -> & Hs)]).
  - left. destruct g as [|s g0 _] using rev_ind; [done|].
    apply Forall_app in Hg as [Hg0 Hs]. inversion Hs; subst.
    rewrite chunk_de_snoc by done. rewrite juntar_snoc in Htam.
    rewrite !length_app in *.
    change (length (py ". ")) with 2%nat in Htam.
    change (length (py ".")) with 1%nat. lia.
  - right. exists s. inversion Hg; subst. by rewrite chunk_de_um.
Qed.

Lemma chunk_de_nao_vazio T g : grupo_ok T g → chunk_de g ≠ [].
Proof.
  intros (Hne & Hg & _). destruct g as [|s g0 _] using rev_ind; [done|].
  apply Forall_app in Hg as [Hg0 Hs]. inversion Hs; subst.
  rewrite chunk_de_snoc by done. intros E.
  apply (f_equal length) in E. rewrite !length_app in E. simpl in E. lia.
Qed.

Lemma concat_sentencas_chunks T gs :
  Forall (grupo_ok T) gs → concat (sentencas <$> (chunk_de <$> gs)) = concat gs.
Proof.
  induction 1 as [|g gs (Hne & Hg & _) _ IH]; [done|].
  rewrite !fmap_cons. cbn [concat]. by rewrite IH, sentencas_chunk_de.
Qed.

(** C5: every chunk is at most [tamanho_chunk] characters long, unless it
    is a single sentence of the text, saved with its period, whose trimmed
    form alone has [tamanho_chunk] characters or more. It holds for every
    target size, in particular for every size of at least 1. *)
Theorem dividir_em_chunks_limite texto T :
  Forall (λ c : str,
      Z.of_nat (length c) ≤ T
      ∨ ∃ s, s ∈ sentencas texto ∧ c = s ++ py "." ∧ T ≤ Z.of_nat (length s))
    (_dividir_em_chunks texto T).
Proof.
  destruct (dividir_grupos texto T) as (gs & -> & Hc & Hgs).
  apply Forall_fmap, Forall_forall. intros g Hin. simpl.
  pose proof (proj1 (Forall_forall _ _) Hgs g Hin) as Hok.
  destruct (grupo_ok_chunk T g Hok) as [Hle|(s & -> & Hch & Hs)]; [by left|].
  right. exists s. split; [|done].
  rewrite <- Hc. apply list_elem_of_In, in_concat. exists [s].
  split; [by apply list_elem_of_In | by left].
Qed.

(** C6: reading the chunks back with the sentence pattern (split at the
    punctuation, trim, drop the empty pieces) and concatenating gives
    exactly the non-empty trimmed sentences of the text, in order; the
    chunks are the saved forms of consecutive non-empty groups of these
    sentences; and no chunk is the empty string. It holds for every text,
    in particular for every non-empty one. *)
Theorem dividir_em_chunks_reconstroi texto T :
  concat (sentencas <$> _dividir_em_chunks texto T) = sentencas texto
  ∧ Forall (λ c : str, c ≠ []) (_dividir_em_chunks texto T)
  ∧ ∃ grupos,
      Forall (λ g, g ≠ []) grupos
      ∧ concat grupos = sentencas texto
      ∧ _dividir_em_chunks texto T = chunk_de <$> grupos.
Proof.
  destruct (dividir_grupos texto T) as (gs & -> & Hc & Hgs).
  split; [by trans (concat gs); [apply (concat_sentencas_chunks T)|]|]. split.
  - apply Forall_fmap. eapply Forall_impl; [exact Hgs|].
    intros g Hg. by apply (chunk_de_nao_vazio T).
  - exists gs. split; [|done].
    eapply Forall_impl; [exact Hgs|]. by intros g (? & _).
Qed.

(** A text yields no chunk exactly when it has no sentence. *)
Lemma dividir_vazio_sse texto T :
  _dividir_em_chunks texto T = [] ↔ sentencas texto = [].
Proof.
  destruct (dividir_grupos texto T) as (gs & -> & <- & Hgs). split.
  - intros E. by apply fmap_nil_inv in E as ->.
  - destruct Hgs as [|g gs (Hne & _) _]; [done|].
    destruct g; [done|]. by simpl.
Qed.

Lemma re_split_Forall (P : char → Prop) texto :
  Forall P texto → Forall (Forall P) (re_split texto).
Proof.
  induction 1 as [|c s Hc Hs IH]; simpl; [by repeat constructor|].
  destruct (is_terminal c).
  - destruct s as [|c' s']; [by repeat constructor|].
    destruct (is_terminal c'); [done | by constructor].
  - destruct (re_split s) as [|p ps]; [by repeat constructor|].
    inversion IH; subst. by repeat constructor.
Qed.

Lemma strip_espacos s : Forall (λ c, is_space c = true) s → strip s = [].
Proof.
  intros Hs. unfold strip.
  replace (lstrip s) with (@nil char); [done|].
  rewrite <- (app_nil_r s). by rewrite lstrip_app_spaces.
Qed.

(** Texts of whitespace and sentence punctuation only, the empty text
    among them, have no sentence. *)
Lemma sentencas_so_pontuacao texto :
  Forall (λ c, is_space c || is_terminal c = true) texto →
  sentencas texto = [].
Proof.
  intros Ht. unfold sentencas.
  pose proof (re_split_Forall _ _ Ht) as H1.
  pose proof (re_split_sem_pontuacao texto) as H2.
  induction (re_split texto) as [|p ps IH]; [done|].
  inversion H1 as [|?? Hp1 Hps1]; subst. inversion H2 as [|?? Hp2 Hps2]; subst.
  rewrite fmap_cons, filter_cons_False; [by apply IH|].
  intros Hne. apply Hne, strip_espacos.
  apply Forall_forall. intros c Hc.
  pose proof (proj1 (Forall_forall _ _) Hp1 c Hc) as Ha.
  pose proof (proj1 (Forall_forall _ _) Hp2 c Hc) as Hb.
  simpl in *. rewrite Hb in Ha. by destruct (is_space c).
Qed.

End chunker_contrato.

(** ** The transcription store *)

Section audio_store.
Context {vec : Type}.
Implicit Types (σ : heap) (self : @Audio.AudioEmbeddingSystem vec)
  (d : gmap string pyval) (m l : loc) (agora t : str).

Lemma alter_Some (f : gmap string pyval → gmap string pyval) σ m d :
  σ !! m = Some d → alter f m σ = <[m := f d]> σ.
Proof.
  intros Hm. apply map_eq. intros i. rewrite lookup_alter, lookup_insert.
  case_decide; [subst; by rewrite Hm | done].
Qed.

(** The call with a dictionary of the caller's. *)
Lemma adicionar_transcricao_some agora t m σ self d :
  σ !! m = Some d →
  Audio.adicionar_transcricao agora t (Some m) σ self
  = (<[m := registro agora (length (Audio.transcricoes self)) d]> σ,
     Audio.Sistema (Audio.transcricoes self ++ [t])
                   (Audio.metadados self ++ [m]) (Audio.indice self),
     PyNone).
Proof.
  intros Hm. unfold Audio.adicionar_transcricao, dict_contem, dict_atribuir.
  rewrite (lookup_total_correct σ m d Hm).
  unfold registro, com_timestamp.
  destruct (d !! "timestamp") as [v|] eqn:Hts.
  - rewrite bool_decide_eq_true_2 by eauto.
    by rewrite (alter_Some _ σ m d).
  - rewrite bool_decide_eq_false_2 by (by intros [? ?]).
    rewrite (alter_Some _ σ m d) by done.
    rewrite (alter_Some _ _ m (<["timestamp" := PyStr agora]> d))
      by apply lookup_insert_eq.
    by rewrite insert_insert_eq.
Qed.

(** The call without a dictionary: a new one is created. *)
Lemma adicionar_transcricao_none agora t σ self :
  Audio.adicionar_transcricao agora t None σ self
  = (<[fresh (dom σ) := registro agora (length (Audio.transcricoes self)) ∅]> σ,
     Audio.Sistema (Audio.transcricoes self ++ [t])
                   (Audio.metadados self ++ [fresh (dom σ)]) (Audio.indice self),
     PyNone).
Proof.
  change (Audio.adicionar_transcricao agora t None σ self)
    with (Audio.adicionar_transcricao agora t (Some (fresh (dom σ)))
            (<[fresh (dom σ) := ∅]> σ) self).
  rewrite (adicionar_transcricao_some _ _ _ _ _ ∅) by apply lookup_insert_eq.
  by rewrite insert_insert_eq.
Qed.

Lemma fresh_livre σ : σ !! fresh (dom σ) = None.
Proof. apply not_elem_of_dom, is_fresh. Qed.

Lemma registro_id agora n d :
  registro agora n d !! "id" = Some (PyInt (Z.of_nat n)).
Proof. apply lookup_insert_eq. Qed.

Lemma registro_timestamp agora n d :
  registro agora n d !! "timestamp"
  = Some (default (PyStr agora) (d !! "timestamp")).
Proof.
  unfold registro, com_timestamp. rewrite lookup_insert_ne by done.
  destruct (d !! "timestamp") eqn:E; [done|]. by rewrite lookup_insert_eq.
Qed.

Lemma registro_outras agora n d (k : string) :
  k ≠ "id" → k ≠ "timestamp" → registro agora n d !! k = d !! k.
Proof.
  intros H1 H2. unfold registro, com_timestamp.
  rewrite lookup_insert_ne by done.
  destruct (d !! "timestamp"); [done|]. by rewrite lookup_insert_ne.
Qed.

End audio_store.

Section audio_contrato.
Context {vec : Type}.
Implicit Types (σ : heap) (self : @Audio.AudioEmbeddingSystem vec)
  (d : gmap string pyval) (m l : loc) (agora t : str).

(** C3, as amended: a call appends the text and a metadata record (a new
    empty dictionary when none is given, else the caller's own), with the
    creation time stored under ['timestamp'] unless the key is present and
    the number of transcriptions stored before the call under ['id']; the
    call returns [None], not the identifier. *)
Theorem adicionar_transcricao_efeito agora t (marg : option loc) σ self :
  (∀ m, marg = Some m → is_Some (σ !! m)) →
  ∃ m d,
    match marg with
    | Some m' => m = m' ∧ σ !! m = Some d
    | None => σ !! m = None ∧ d = ∅
    end
    ∧ Audio.adicionar_transcricao agora t marg σ self
      = (<[m := registro agora (length (Audio.transcricoes self)) d]> σ,
         Audio.Sistema (Audio.transcricoes self ++ [t])
                       (Audio.metadados self ++ [m]) (Audio.indice self),
         PyNone)
    ∧ registro agora (length (Audio.transcricoes self)) d !! "id"
      = Some (PyInt (Z.of_nat (length (Audio.transcricoes self))))
    ∧ registro agora (length (Audio.transcricoes self)) d !! "timestamp"
      = Some (default (PyStr agora) (d !! "timestamp")).
Proof.
  intros Hlive. destruct marg as [m|].
  - destruct (Hlive m eq_refl) as [d Hd]. exists m, d.
    split; [done|]. split; [by apply adicionar_transcricao_some|].
    split; [apply registro_id | apply registro_timestamp].
  - exists (fresh (dom σ)), ∅. split; [split; [apply fresh_livre | done]|].
    split; [apply adicionar_transcricao_none|].
    split; [apply registro_id | apply registro_timestamp].
Qed.

(** C9: called with a dictionary [m] of the caller's, the store keeps [m]
    itself as its last metadata record and writes into it: ['id'] is set,
    ['timestamp'] is set if it was absent, every other key of [m] keeps its
    value, and no other dictionary changes. *)
Theorem adicionar_transcricao_altera_argumento agora t m σ self d :
  σ !! m = Some d →
  ∃ σ' self' d',
    Audio.adicionar_transcricao agora t (Some m) σ self = (σ', self', PyNone)
    ∧ last (Audio.metadados self') = Some m
    ∧ σ' !! m = Some d'
    ∧ d' !! "id" = Some (PyInt (Z.of_nat (length (Audio.transcricoes self))))
    ∧ d' !! "timestamp" = Some (default (PyStr agora) (d !! "timestamp"))
    ∧ (∀ k : string, k ≠ "id" → k ≠ "timestamp" → d' !! k = d !! k)
    ∧ (∀ l, l ≠ m → σ' !! l = σ !! l).
Proof.
  intros Hm. eexists _, _, _.
  split; [by apply adicionar_transcricao_some|]. simpl.
  split; [apply last_snoc|].
  split; [apply lookup_insert_eq|].
  split; [apply registro_id|].
  split; [apply registro_timestamp|].
  split; [apply registro_outras|].
  intros l Hl. by rewrite lookup_insert_ne.
Qed.





Lemma executar_indice (cs : list Audio.chamada) : ∀ σ self,
  Audio.indice (Audio.executar cs σ self).2 = Audio.indice self.
Proof.
  induction cs as [|c cs IH]; intros σ self; [done|].
  unfold Audio.executar. simpl fold_left.
  destruct (Audio.chamar (σ, self) c) as [σ' self'] eqn:E.
  etrans; [apply IH|]. unfold Audio.chamar, Audio.adicionar_transcricao in E.
  simpl in E. by destruct (Audio.c_metadados c); simpl in E;
    injection E as _ <-.
Qed.

End audio_contrato.

(** ** The document store *)

Section rag_store.
Context {vec : Type}.
Implicit Types (self : @RAG.SistemaRAG vec) (md : gmap string pyval)
  (texto titulo : str).

Lemma enumerate_snd {A} (l : list A) : (enumerate l).*2 = l.
Proof.
  unfold enumerate.
  assert (∀ (f : nat → Z), (imap (λ i x, (f i, x)) l).*2 = l) as H.
  { induction l as [|x l IH]; intros f; [done|].
    simpl. f_equal. apply (IH (f ∘ S)). }
  apply (H Z.of_nat).
Qed.

(** The ['id'] entry of a chunk's record is the caller's, if any. *)
Lemma chunk_metadados_id (doc_id i : Z) titulo md :
  RAG.chunk_metadados doc_id i titulo md !! "id" = md !! "id".
Proof.
  unfold RAG.chunk_metadados. rewrite lookup_union.
  rewrite !lookup_insert_ne, lookup_empty by done.
  by destruct (md !! "id").
Qed.

(** The loop of [adicionar_documento]. *)
Lemma fold_anexar (doc_id : Z) titulo md (items : list (Z * str)) : ∀ self,
  ∃ ms,
    fold_left (RAG.anexar doc_id titulo md) items self
    = RAG.Sistema (RAG.documentos self) (RAG.chunks self ++ items.*2)
                  (RAG.metadados self ++ ms) (RAG.indice self)
    ∧ length ms = length items
    ∧ Forall (λ r : gmap string pyval, r !! "id" = md !! "id") ms.
Proof.
  induction items as [|[i c] items IH]; intros self.
  - exists []. rewrite !app_nil_r. by destruct self.
  - destruct (IH (RAG.anexar doc_id titulo md self (i, c))) as (ms & E & Hl & Hid).
    exists (RAG.chunk_metadados doc_id i titulo md :: ms).
    cbn [fold_left]. rewrite E. simpl. rewrite <- !app_assoc. simpl.
    split; [done|]. split; [by rewrite Hl|].
    constructor; [apply chunk_metadados_id | done].
Qed.

Lemma adicionar_documento_forma texto titulo (marg : option (gmap string pyval)) self :
  ∃ ms,
    RAG.adicionar_documento texto titulo marg self
    = RAG.Sistema
        (RAG.documentos self
           ++ [RAG.Documento (Z.of_nat (length (RAG.documentos self)))
                             titulo texto (default ∅ marg)])
        (RAG.chunks self ++ Chunker._dividir_em_chunks texto 500)
        (RAG.metadados self ++ ms) (RAG.indice self)
    ∧ length ms = length (Chunker._dividir_em_chunks texto 500)
    ∧ Forall (λ r : gmap string pyval, r !! "id" = default ∅ marg !! "id") ms.
Proof.
  unfold RAG.adicionar_documento.
  edestruct fold_anexar as (ms & -> & Hl & Hid).
  exists ms. simpl. rewrite enumerate_snd. split; [done|]. split; [|done].
  rewrite Hl. unfold enumerate. apply length_imap.
Qed.

Lemma chamar_paralelo self (c : RAG.chamada) :
  chunks_em_paralelo self → chunks_em_paralelo (RAG.chamar self c).
Proof.
  intros [Hlen Hid]. unfold RAG.chamar.
  destruct (adicionar_documento_forma (RAG.c_texto c) (RAG.c_titulo c)
    (RAG.c_metadados_arg c) self) as (ms & -> & Hl & Hms).
  split; simpl.
  - rewrite !length_app. lia.
  - apply Forall_app. split.
    + eapply Forall_impl; [exact Hid|]. intros r (doc & Hdoc & Hr).
      exists doc. split; [|done]. apply elem_of_app. by left.
    + eapply Forall_impl; [exact Hms|]. intros r Hr. eexists.
      split; [apply elem_of_app; right; by apply list_elem_of_singleton|].
      done.
Qed.

Lemma executar_paralelo (cs : list RAG.chamada) : ∀ self,
  chunks_em_paralelo self → chunks_em_paralelo (RAG.executar cs self).
Proof.
  induction cs as [|c cs IH]; intros self Hinv; [done|].
  apply IH. by apply chamar_paralelo.
Qed.

End rag_store.

(** ** Invariant of the stores *)



(** ** Documents without chunks *)

Section rag_contrato.
Context {vec : Type} (encode : list str → list vec).
Implicit Types (self : @RAG.SistemaRAG vec) (texto titulo : str).

(** C10: a document whose text yields no chunk (a text of whitespace and
    sentence punctuation only does, the empty text included) is still
    recorded, under the next document identifier, while the chunk list, the
    metadata list and the index stay as they were; and if the store holds no
    chunk, [criar_indice] then fails with the empty-corpus error although
    the store holds a document. *)
Theorem documento_sem_chunks texto titulo (marg : option (gmap string pyval)) self :
  Chunker._dividir_em_chunks texto 500 = [] →
  let self' := RAG.adicionar_documento texto titulo marg self in
  RAG.documentos self'
    = RAG.documentos self
      ++ [RAG.Documento (Z.of_nat (length (RAG.documentos self)))
                        titulo texto (default ∅ marg)]
  ∧ RAG.chunks self' = RAG.chunks self
  ∧ RAG.metadados self' = RAG.metadados self
  ∧ RAG.indice self' = RAG.indice self
  ∧ (RAG.chunks self = [] →
     RAG.documentos self' ≠ []
     ∧ RAG.criar_indice encode self' = Raise RAG.sem_documentos)
  ∧ ∀ texto',
      Forall (λ c, is_space c || is_terminal c = true) texto' →
      Chunker._dividir_em_chunks texto' 500 = [].
Proof.
  intros Hvazio self'. subst self'. unfold RAG.adicionar_documento.
  rewrite Hvazio. simpl.
  split; [done|]. split; [done|]. split; [done|]. split; [done|]. split.
  - intros Hc. split; [by destruct (RAG.documentos self)|].
    unfold RAG.criar_indice. simpl. by rewrite Hc.
  - intros texto' Ht. by apply dividir_vazio_sse, sentencas_so_pontuacao.
Qed.

End rag_contrato.

Lemma documento_sem_chunks_witness :
  Chunker._dividir_em_chunks (py " ... ?! ") 500 = []
  ∧ (let self' := RAG.adicionar_documento (vec := Z) (py " ... ?! ") (py "vazio")
                    None RAG.init in
     RAG.documentos self'
       = RAG.documentos (RAG.init (vec := Z))
         ++ [RAG.Documento (Z.of_nat (length (RAG.documentos (RAG.init (vec := Z)))))
                           (py "vazio") (py " ... ?! ") (default ∅ None)]
     ∧ RAG.chunks self' = RAG.chunks (RAG.init (vec := Z))
     ∧ RAG.metadados self' = RAG.metadados (RAG.init (vec := Z))
     ∧ RAG.indice self' = RAG.indice (RAG.init (vec := Z))
     ∧ (RAG.chunks (RAG.init (vec := Z)) = [] →
        RAG.documentos self' ≠ []
        ∧ RAG.criar_indice encode_len self' = Raise RAG.sem_documentos)
     ∧ ∀ texto',
         Forall (λ c, is_space c || is_terminal c = true) texto' →
         Chunker._dividir_em_chunks texto' 500 = []).
Proof.
  assert (Chunker._dividir_em_chunks (py " ... ?! ") 500 = []) as Hvazio
    by (vm_compute; reflexivity).
  split; [exact Hvazio|].
  exact (documento_sem_chunks encode_len (py " ... ?! ") (py "vazio") None
           RAG.init Hvazio).
Defined.

(** ** States of the pipeline *)

Section pipeline.
Context {vec : Type} (encode : list str → list vec) (l2 : vec → vec → Q).

(** C7: without an index ([indice] is [None], as [__init__] leaves it and
    as it stays until [criar_indice] succeeds) a search fails with the
    not-indexed error, whatever the query and [k]; and on a store without
    units [criar_indice] fails with the empty-corpus error. Both classes. *)
Theorem busca_sem_indice_e_indice_sem_corpus
    (a : @Audio.AudioEmbeddingSystem vec) (r : @RAG.SistemaRAG vec)
    (consulta : str) (k : Z) :
  (Audio.indice a = None →
   Audio.buscar_transcricoes encode l2 a consulta k = Raise Audio.sem_indice)
  ∧ (RAG.indice r = None →
     RAG.recuperar_contexto encode l2 r consulta k = Raise RAG.sem_indice)
  ∧ (Audio.transcricoes a = [] →
     Audio.criar_indice encode a = Raise Audio.sem_transcricoes)
  ∧ (RAG.chunks r = [] →
     RAG.criar_indice encode r = Raise RAG.sem_documentos).
Proof.
  unfold Audio.buscar_transcricoes, RAG.recuperar_contexto,
    Audio.criar_indice, RAG.criar_indice.
  repeat split; by intros ->.
Qed.

(** Adding units does not leave the unindexed state. *)
Lemma adicionar_mantem_sem_indice (σ0 : heap) (cs : list Audio.chamada)
    (ds : list RAG.chamada) :
  Audio.indice (Audio.executar (vec := vec) cs σ0 Audio.init).2 = None
  ∧ RAG.indice (RAG.executar (vec := vec) ds RAG.init) = None.
Proof.
  split; [apply executar_indice|].
  assert (∀ self : @RAG.SistemaRAG vec,
    RAG.indice (RAG.executar ds self) = RAG.indice self) as H; [|apply H].
  induction ds as [|c ds IH]; intros self; [done|].
  unfold RAG.executar in *. simpl. rewrite IH. unfold RAG.chamar.
  by destruct (adicionar_documento_forma (RAG.c_texto c) (RAG.c_titulo c)
    (RAG.c_metadados_arg c) self) as (ms & -> & _).
Qed.

(** C8: on a non-empty corpus [criar_indice] succeeds, and calling it again
    at once succeeds with the same index contents, hence the same system and
    the same answer to every search. Both classes. *)
Theorem criar_indice_idempotente
    (a : @Audio.AudioEmbeddingSystem vec) (r : @RAG.SistemaRAG vec) :
  (Audio.transcricoes a ≠ [] →
   ∃ a1 a2,
     Audio.criar_indice encode a = Ok a1
     ∧ Audio.criar_indice encode a1 = Ok a2
     ∧ Audio.indice a2 = Audio.indice a1
     ∧ Audio.indice a1 = Some (encode (Audio.transcricoes a))
     ∧ ∀ consulta k,
         Audio.buscar_transcricoes encode l2 a2 consulta k
         = Audio.buscar_transcricoes encode l2 a1 consulta k)
  ∧ (RAG.chunks r ≠ [] →
     ∃ r1 r2,
       RAG.criar_indice encode r = Ok r1
       ∧ RAG.criar_indice encode r1 = Ok r2
       ∧ RAG.indice r2 = RAG.indice r1
       ∧ RAG.indice r1 = Some (encode (RAG.chunks r))
       ∧ ∀ pergunta k,
           RAG.recuperar_contexto encode l2 r2 pergunta k
           = RAG.recuperar_contexto encode l2 r1 pergunta k).
Proof.
  split.
  - intros Hne. unfold Audio.criar_indice.
    destruct a as [[|t ts] ms idx]; [done|].
    eexists _, _. by repeat split.
  - intros Hne. unfold RAG.criar_indice.
    destruct r as [docs [|t ts] ms idx]; [done|].
    eexists _, _. by repeat split.
Qed.

(** C4, as amended: neither search checks [k]. On a built index a call with
    [k <= 0] fails, with the assertion error of the index's own [search],
    which is none of the errors the pipeline raises. Both classes. *)
Theorem busca_k_nao_positivo
    (a : @Audio.AudioEmbeddingSystem vec) (r : @RAG.SistemaRAG vec)
    (consulta : str) (k : Z) :
  k ≤ 0 →
  (is_Some (Audio.indice a) →
   Audio.buscar_transcricoes encode l2 a consulta k = Raise AssertionError)
  ∧ (is_Some (RAG.indice r) →
     RAG.recuperar_contexto encode l2 r consulta k = Raise AssertionError).
Proof.
  intros Hk. unfold Audio.buscar_transcricoes, RAG.recuperar_contexto,
    faiss.search.
  split; intros [idx ->]; by rewrite (proj2 (Z.leb_le k 0) Hk).
Qed.

End pipeline.

(** ** The index's answer *)

Section faiss_facts.
Context {vec : Type} (l2 : vec → vec → Q).
Implicit Types (a b c : Q * Z) (xb : list vec) (q : vec).

Lemma hit_le_spec a b :
  faiss.hit_le a b ↔ (a.1 < b.1)%Q ∨ ((a.1 <= b.1)%Q ∧ a.2 ≤ b.2).
Proof.
  unfold faiss.hit_le, faiss.hit_leb.
  rewrite orb_true_iff, andb_true_iff, negb_true_iff, Z.leb_le.
  rewrite Qle_bool_iff, <- not_true_iff_false, Qle_bool_iff.
  split; (intros [H|H]; [left | by right]).
  - by apply Qnot_le_lt.
  - by apply Qlt_not_le.
Qed.

Lemma hit_le_total : Total faiss.hit_le.
Proof.
  intros a b. rewrite !hit_le_spec.
  destruct (Qlt_le_dec a.1 b.1) as [?|Hba]; [by left; left|].
  destruct (Qlt_le_dec b.1 a.1) as [?|Hab]; [by right; left|].
  destruct (Z.le_ge_cases a.2 b.2); [left | right]; by right.
Qed.

Lemma hit_le_trans : Transitive faiss.hit_le.
Proof.
  intros a b c. rewrite !hit_le_spec.
  intros [Hab|[Hab Hi]] [Hbc|[Hbc Hj]].
  - left. by eapply Qlt_trans.
  - left. by eapply Qlt_le_trans.
  - left. by eapply Qle_lt_trans.
  - right. split; [by eapply Qle_trans | lia].
Qed.

Lemma candidatos_elem xb q a :
  a ∈ candidatos l2 xb q →
  ∃ (i : nat) v, xb !! i = Some v ∧ a = (l2 q v, Z.of_nat i).
Proof.
  unfold candidatos. intros (i & v & -> & Hi)%elem_of_lookup_imap.
  by exists i, v.
Qed.

(** Within the size of the index the answer is the first [k] rows of the
    sorted candidates, without padding. *)
Lemma knn_dentro xb q (k : nat) :
  (k ≤ length xb)%nat →
  faiss.knn l2 xb k q = take k (merge_sort faiss.hit_le (candidatos l2 xb q))
  ∧ length (faiss.knn l2 xb k q) = k.
Proof.
  intros Hk. unfold faiss.knn. fold (candidatos l2 xb q).
  assert (length (take k (merge_sort faiss.hit_le (candidatos l2 xb q))) = k) as Hl.
  { rewrite length_take, (Permutation_length (merge_sort_Permutation _ _)).
    unfold candidatos. rewrite length_imap. lia. }
  rewrite Hl, Nat.sub_diag. simpl. by rewrite app_nil_r.
Qed.

(** Beyond the size of the index the answer is all the rows, sorted,
    followed by padding rows. *)
Lemma knn_alem xb q (k : nat) :
  (length xb ≤ k)%nat →
  faiss.knn l2 xb k q
  = merge_sort faiss.hit_le (candidatos l2 xb q)
    ++ replicate (k - length xb) (faiss.FLT_MAX, -1).
Proof.
  intros Hk. unfold faiss.knn. fold (candidatos l2 xb q).
  assert (length (merge_sort faiss.hit_le (candidatos l2 xb q)) = length xb) as Hl.
  { rewrite (Permutation_length (merge_sort_Permutation _ _)).
    unfold candidatos. apply length_imap. }
  rewrite take_ge by lia. by rewrite Hl.
Qed.

(** A label of the answer is a row of the index or [-1]. *)
Lemma knn_rotulos xb q (k : nat) a :
  a ∈ faiss.knn l2 xb k q →
  a.2 = -1 ∨ ∃ i : nat, (i < length xb)%nat ∧ a.2 = Z.of_nat i.
Proof.
  unfold faiss.knn. fold (candidatos l2 xb q).
  intros [Ha|Ha]%elem_of_app.
  - right. apply subseteq_take in Ha.
    rewrite merge_sort_Permutation in Ha.
    apply candidatos_elem in Ha as (i & v & Hi & ->).
    exists i. split; [by eapply lookup_lt_Some | done].
  - left. by apply elem_of_replicate in Ha as [-> _].
Qed.

(** The answer always has [k] rows. *)
Lemma knn_length xb q (k : nat) : length (faiss.knn l2 xb k q) = k.
Proof.
  unfold faiss.knn. rewrite length_app, length_replicate, length_take. lia.
Qed.

End faiss_facts.

(** ** Search on a built index *)

Section busca.
Context {vec : Type} (encode : list str → list vec) (l2 : vec → vec → Q).
Implicit Types (self : @Audio.AudioEmbeddingSystem vec) (idx : list vec)
  (consulta : str) (k : Z) (v : vec).

Lemma py_index_nat {A} (l : list A) (i : nat) x :
  l !! i = Some x → py_index l (Z.of_nat i) = Ok x.
Proof.
  intros Hi. unfold py_index.
  destruct (Z.ltb_spec (Z.of_nat i) 0) as [?|_]; [lia|].
  destruct (Z.ltb_spec (Z.of_nat i) 0) as [?|_]; [lia|].
  by rewrite Nat2Z.id, Hi.
Qed.

(** The label [-1] read as a list index is the last position. *)
Lemma py_index_menos_um {A} (l : list A) x :
  last l = Some x → py_index l (-1) = Ok x.
Proof.
  intros Hl. unfold py_index. simpl.
  destruct l as [|y l] using rev_ind; [done|].
  rewrite last_snoc in Hl. injection Hl as ->.
  rewrite length_app. simpl.
  destruct (Z.ltb_spec (-1 + Z.of_nat (length l + 1)) 0) as [?|_]; [lia|].
  replace (Z.to_nat (-1 + Z.of_nat (length l + 1))) with (length l) by lia.
  by rewrite list_lookup_middle.
Qed.

Lemma mapM_imap {A B} (g : Z * A → res B) (P : A → B → Prop) (hs : list A) :
  (∀ pos h, h ∈ hs → ∃ r, g (pos, h) = Ok r ∧ P h r) →
  ∀ f : nat → Z,
    ∃ rs, mapM g (imap (λ i x, (f i, x)) hs) = Ok rs ∧ Forall2 P hs rs.
Proof.
  induction hs as [|h hs IH]; intros Hg f.
  - by exists [].
  - destruct (Hg (f 0%nat) h) as (r & Hr & HP); [by left|].
    destruct (IH (λ pos h' Hh', Hg pos h' (list_elem_of_further _ _ _ Hh')) (f ∘ S))
      as (rs & Hrs & HF).
    exists (r :: rs). split; [|by constructor].
    simpl. rewrite Hr. simpl.
    change (mapM g (imap (λ i x, ((f ∘ S) i, x)) hs) ≫= (λ ys, mret (r :: ys))
            = Ok (r :: rs)).
    by rewrite Hrs.
Qed.

Lemma py_index_menos_um_inv {A} (l : list A) x :
  py_index l (-1) = Ok x → last l = Some x.
Proof.
  destruct l as [|y l _] using rev_ind; [done|].
  rewrite (py_index_menos_um (l ++ [y]) y) by apply last_snoc.
  intros [= ->]. apply last_snoc.
Qed.

(** The loop body succeeds on every label that is a position of the store
    or, the store not being empty, [-1]. *)
Lemma montar_juncao self (pos : Z) (h : Q * Z) :
  length (Audio.transcricoes self) = length (Audio.metadados self) →
  Audio.transcricoes self ≠ [] →
  h.2 = -1
  ∨ (∃ i : nat, (i < length (Audio.transcricoes self))%nat ∧ h.2 = Z.of_nat i) →
  ∃ r, Audio.montar self (pos, h) = Ok r ∧ juncao self h r.
Proof.
  intros Hlen Hne Hh. destruct h as [d id]. simpl in Hh.
  assert (∃ t m, py_index (Audio.transcricoes self) id = Ok t
                 ∧ py_index (Audio.metadados self) id = Ok m) as (t & m & Ht & Hm).
  { destruct Hh as [->|(i & Hi & ->)].
    - destruct (Audio.transcricoes self) as [|t0 ts] eqn:Ets using rev_ind; [done|].
      destruct (Audio.metadados self) as [|m0 ms] eqn:Ems using rev_ind.
      { rewrite length_app in Hlen. simpl in Hlen. lia. }
      exists t0, m0. split; apply py_index_menos_um, last_snoc.
    - destruct (lookup_lt_is_Some_2 (Audio.transcricoes self) i) as [t Ht]; [lia|].
      destruct (lookup_lt_is_Some_2 (Audio.metadados self) i) as [m Hm]; [lia|].
      exists t, m. split; by apply py_index_nat. }
  eexists. unfold Audio.montar, juncao. rewrite Ht, Hm. simpl. done.
Qed.

(** With a positive [k] the search is the join of the index's answer for
    the one query vector. *)
Lemma buscar_forma self idx consulta k v :
  Audio.indice self = Some idx →
  encode [consulta] = [v] →
  0 < k →
  Audio.buscar_transcricoes encode l2 self consulta k
  = mapM (Audio.montar self) (enumerate (faiss.knn l2 idx (Z.to_nat k) v)).
Proof.
  intros Hidx Hv Hk. unfold Audio.buscar_transcricoes, faiss.search.
  rewrite Hidx, Hv, (proj2 (Z.leb_gt _ _)) by done.
  simpl. by rewrite zip_fst_snd.
Qed.

(** For every [k >= 1] the search succeeds and its results are, row by
    row, the joins of the [k] rows the index answers. *)
Lemma buscar_juncao self idx consulta k :
  (∀ ts, length (encode ts) = length ts) →
  Audio.indice self = Some idx →
  (length idx ≤ length (Audio.transcricoes self))%nat →
  length (Audio.transcricoes self) = length (Audio.metadados self) →
  Audio.transcricoes self ≠ [] →
  1 ≤ k →
  ∃ v rs,
    encode [consulta] = [v]
    ∧ Audio.buscar_transcricoes encode l2 self consulta k = Ok rs
    ∧ length rs = Z.to_nat k
    ∧ Forall2 (juncao self) (faiss.knn l2 idx (Z.to_nat k) v) rs.
Proof.
  intros Hrows Hidx Hn Hlen Hne Hk.
  pose proof (Hrows [consulta]) as Hq.
  destruct (encode [consulta]) as [|v [|??]] eqn:Hv; try done. clear Hq.
  destruct (mapM_imap (Audio.montar self) (juncao self)
    (faiss.knn l2 idx (Z.to_nat k) v)) with Z.of_nat as (rs & Hrs & HF).
  { intros pos h Hh. apply montar_juncao; [done..|].
    destruct (knn_rotulos l2 idx v _ h Hh) as [?|(i & Hi & ?)]; [by left|].
    right. exists i. split; [lia | done]. }
  exists v, rs. split; [done|]. split.
  { by rewrite (buscar_forma self idx consulta k v) by (done || lia). }
  split; [|done].
  apply Forall2_length in HF. by rewrite <- HF, knn_length.
Qed.

(** For [k > n], with [n] the size of the index, the search returns [k]
    results, and every result after the [n]-th is the last unit of the
    store with the padding distance. *)
Lemma busca_com_preenchimento self idx consulta k :
  (∀ ts, length (encode ts) = length ts) →
  Audio.indice self = Some idx →
  (length idx ≤ length (Audio.transcricoes self))%nat →
  length (Audio.transcricoes self) = length (Audio.metadados self) →
  Audio.transcricoes self ≠ [] →
  Z.of_nat (length idx) < k →
  ∃ rs,
    Audio.buscar_transcricoes encode l2 self consulta k = Ok rs
    ∧ length rs = Z.to_nat k
    ∧ ∀ (j : nat) r, (length idx ≤ j)%nat → rs !! j = Some r →
        last (Audio.transcricoes self) = Some (Audio.transcricao r)
        ∧ last (Audio.metadados self) = Some (Audio.r_metadados r)
        ∧ Audio.distancia r = faiss.FLT_MAX.
Proof.
  intros Hrows Hidx Hn Hlen Hne Hk.
  destruct (buscar_juncao self idx consulta k) as (v & rs & _ & E & Hl & HF);
    [done..|lia|].
  exists rs. split; [done|]. split; [done|].
  intros j r Hj Hr.
  destruct (Forall2_lookup_r _ _ _ _ _ HF Hr) as (h & Hh & Ht & Hm & Hd).
  rewrite knn_alem in Hh by lia.
  rewrite lookup_app_r in Hh.
  2:{ rewrite (Permutation_length (merge_sort_Permutation _ _)).
      unfold candidatos. by rewrite length_imap. }
  apply lookup_replicate in Hh as [-> _]. simpl in *.
  split; [by apply py_index_menos_um_inv|].
  split; [by apply py_index_menos_um_inv | done].
Qed.

(** For [1 <= k <= n], with [n] the size of the index, the search returns
    exactly [k] results: the first [k] of the index rows sorted by distance
    and then label, each with the text and the metadata the store holds at
    that label. *)
Lemma buscar_dentro_do_corpus self idx consulta k :
  (∀ ts, length (encode ts) = length ts) →
  Audio.indice self = Some idx →
  (length idx ≤ length (Audio.transcricoes self))%nat →
  length (Audio.transcricoes self) = length (Audio.metadados self) →
  1 ≤ k ≤ Z.of_nat (length idx) →
  ∃ v hits resto rs,
    encode [consulta] = [v]
    ∧ Audio.buscar_transcricoes encode l2 self consulta k = Ok rs
    ∧ length rs = Z.to_nat k
    ∧ hits ++ resto ≡ₚ candidatos l2 idx v
    ∧ Sorted faiss.hit_le (hits ++ resto)
    ∧ Forall2 (λ (h : Q * Z) r,
        ∃ i : nat, h.2 = Z.of_nat i
          ∧ Audio.transcricoes self !! i = Some (Audio.transcricao r)
          ∧ Audio.metadados self !! i = Some (Audio.r_metadados r)
          ∧ Audio.distancia r = h.1) hits rs.
Proof.
  intros Hrows Hidx Hn Hlen Hk.
  pose proof (Hrows [consulta]) as Hq.
  destruct (encode [consulta]) as [|v [|??]] eqn:Hv; try done. clear Hq.
  set (ord := merge_sort faiss.hit_le (candidatos l2 idx v)).
  destruct (knn_dentro l2 idx v (Z.to_nat k)) as [Hknn Hkl]; [lia|].
  fold ord in Hknn.
  assert (ord ≡ₚ candidatos l2 idx v) as Hperm
    by apply merge_sort_Permutation.
  destruct (mapM_imap (Audio.montar self)
    (λ (h : Q * Z) r, ∃ i : nat, h.2 = Z.of_nat i
        ∧ Audio.transcricoes self !! i = Some (Audio.transcricao r)
        ∧ Audio.metadados self !! i = Some (Audio.r_metadados r)
        ∧ Audio.distancia r = h.1)
    (take (Z.to_nat k) ord)) with Z.of_nat as (rs & Hrs & HF).
  { intros pos h Hh.
    assert (h ∈ candidatos l2 idx v) as Hc.
    { rewrite <- Hperm. by eapply subseteq_take. }
    apply candidatos_elem in Hc as (i & x & Hi & ->).
    apply lookup_lt_Some in Hi.
    destruct (lookup_lt_is_Some_2 (Audio.transcricoes self) i) as [t Ht]; [lia|].
    destruct (lookup_lt_is_Some_2 (Audio.metadados self) i) as [m Hm]; [lia|].
    eexists. split.
    - unfold Audio.montar.
      rewrite (py_index_nat _ i t Ht), (py_index_nat _ i m Hm). done.
    - exists i. by simpl. }
  exists v, (take (Z.to_nat k) ord), (drop (Z.to_nat k) ord), rs.
  split; [done|]. split.
  { rewrite (buscar_forma self idx consulta k v) by (done || lia).
    rewrite Hknn. exact Hrs. }
  split.
  { apply Forall2_length in HF. rewrite <- HF, <- Hknn. exact Hkl. }
  rewrite take_drop. split; [done|]. split; [|done].
  apply Sorted_merge_sort, hit_le_total.
Qed.

End busca.

(** ** Search beyond the size of the index, and with [k <= 0] *)

(** C1 fails when [k] exceeds the corpus: with two units and [k = 3] both
    searches return three results, not two, and the third is the padding row
    of the index (label [-1], largest distance) read against the store,
    where [-1] selects the last unit. *)
Theorem busca_alem_do_corpus :
  Audio.criar_indice encode_len audio_ex.2 = Ok audio_ex_indexado
  ∧ Audio.buscar_transcricoes encode_len l2_len audio_ex_indexado (py "gato") 3
    = Ok [Audio.Resultado 1 (py "gato") 1%positive 0 1;
          Audio.Resultado 2 (py "cachorro") 2%positive 16 (1 / 17);
          Audio.Resultado 3 (py "cachorro") 2%positive faiss.FLT_MAX
            (1 / (1 + faiss.FLT_MAX))]
  ∧ RAG.criar_indice encode_len rag_ex = Ok rag_ex_indexado
  ∧ RAG.recuperar_contexto encode_len l2_len rag_ex_indexado (py "A.") 3
    = Ok [RAG.Item (py "A.") (RAG.chunk_metadados 0 0 (py "um") ∅) 0 1;
          RAG.Item (py "B.") (RAG.chunk_metadados 1 0 (py "dois") ∅) 0 1;
          RAG.Item (py "B.") (RAG.chunk_metadados 1 0 (py "dois") ∅)
            faiss.FLT_MAX (1 / (1 + faiss.FLT_MAX))]
  ∧ Z.min 3 (Z.of_nat (length (Audio.transcricoes audio_ex_indexado))) = 2
  ∧ Z.min 3 (Z.of_nat (length (RAG.chunks rag_ex_indexado))) = 2.
Proof. repeat split; vm_compute; reflexivity. Qed.

(** The model's counterexample to C4 as stated: on a built index a search
    with [k = 0] ends in the index's assertion error, which is not an error
    of the pipeline. *)
Lemma busca_k_zero :
  Audio.buscar_transcricoes encode_len l2_len audio_ex_indexado (py "gato") 0
    = Raise AssertionError
  ∧ RAG.recuperar_contexto encode_len l2_len rag_ex_indexado (py "A.") 0
    = Raise AssertionError
  ∧ ¬ erro_do_pipeline AssertionError.
Proof. split; [done|]. split; [done|]. by intros [msg ?]. Qed.

Lemma busca_k_nao_positivo_witness :
  -2 ≤ 0
  ∧ (is_Some (Audio.indice audio_ex_indexado) →
     Audio.buscar_transcricoes encode_len l2_len audio_ex_indexado (py "gato") (-2)
     = Raise AssertionError)
  ∧ (is_Some (RAG.indice rag_ex_indexado) →
     RAG.recuperar_contexto encode_len l2_len rag_ex_indexado (py "gato") (-2)
     = Raise AssertionError).
Proof.
  split; [lia|].
  apply (busca_k_nao_positivo encode_len l2_len audio_ex_indexado
           rag_ex_indexado (py "gato") (-2)).
  lia.
Defined.

(** The search of the first example, within the corpus. *)
Lemma buscar_dentro_do_corpus_ex :
  ∃ rs, Audio.buscar_transcricoes encode_len l2_len audio_ex_indexado (py "gato") 2
        = Ok rs ∧ length rs = 2%nat.
Proof.
  destruct (buscar_dentro_do_corpus encode_len l2_len audio_ex_indexado
    [4; 8] (py "gato") 2) as (v & hits & resto & rs & _ & E & Hl & _).
  - intros ts. unfold encode_len. by rewrite length_fmap.
  - done.
  - vm_compute. lia.
  - done.
  - vm_compute. split; discriminate.
  - by exists rs.
Qed.

(** ** The calls of the scripts, on concrete stores *)

(** The model's counterexample to C3 as stated: the call on a new system
    returns [None], not the identifier [0] it assigned. *)
Lemma adicionar_transcricao_retorna_none :
  (Audio.adicionar_transcricao (vec := Z) (py "t0") (py "gato") None ∅
     Audio.init).2 = PyNone
  ∧ (Audio.adicionar_transcricao (vec := Z) (py "t0") (py "gato") None ∅
       Audio.init).2
    ≠ PyInt (Z.of_nat (length (Audio.transcricoes (Audio.init (vec := Z))))).
Proof. split; [done|]. by rewrite adicionar_transcricao_none. Qed.

Lemma adicionar_transcricao_efeito_witness :
  (∀ m, Some 1%positive = Some m → is_Some (heap_ex !! m))
  ∧ ∃ m d,
      (m = 1%positive ∧ heap_ex !! m = Some d)
      ∧ Audio.adicionar_transcricao (vec := Z) (py "t0") (py "gato")
          (Some 1%positive) heap_ex Audio.init
        = (<[m := registro (py "t0") 0 d]> heap_ex,
           Audio.Sistema [py "gato"] [m] None, PyNone)
      ∧ registro (py "t0") 0 d !! "id" = Some (PyInt 0)
      ∧ registro (py "t0") 0 d !! "timestamp"
        = Some (default (PyStr (py "t0")) (d !! "timestamp")).
Proof.
  assert (∀ m, Some 1%positive = Some m → is_Some (heap_ex !! m)) as Hlive.
  { intros m [= <-]. eexists. vm_compute. reflexivity. }
  split; [exact Hlive|].
  exact (adicionar_transcricao_efeito (vec := Z) (py "t0") (py "gato")
           (Some 1%positive) heap_ex Audio.init Hlive).
Defined.

Lemma adicionar_transcricao_altera_argumento_witness :
  heap_ex !! 1%positive = Some {[ "falante" := PyStr (py "Cliente A") ]}
  ∧ ∃ σ' self' (d' : gmap string pyval),
      Audio.adicionar_transcricao (vec := Z) (py "t0") (py "gato")
        (Some 1%positive) heap_ex Audio.init = (σ', self', PyNone)
      ∧ last (Audio.metadados self') = Some 1%positive
      ∧ σ' !! 1%positive = Some d'
      ∧ d' !! "id"
        = Some (PyInt (Z.of_nat (length (Audio.transcricoes (Audio.init (vec := Z))))))
      ∧ d' !! "timestamp"
        = Some (default (PyStr (py "t0"))
                  (({[ "falante" := PyStr (py "Cliente A") ]} : gmap string pyval)
                     !! "timestamp"))
      ∧ (∀ k : string, k ≠ "id" → k ≠ "timestamp" →
           d' !! k = ({[ "falante" := PyStr (py "Cliente A") ]} : gmap string pyval) !! k)
      ∧ (∀ l, l ≠ 1%positive → σ' !! l = heap_ex !! l).
Proof.
  assert (heap_ex !! 1%positive = Some {[ "falante" := PyStr (py "Cliente A") ]})
    as Hm by (vm_compute; reflexivity).
  split; [exact Hm|].
  exact (adicionar_transcricao_altera_argumento (vec := Z) (py "t0") (py "gato")
           1%positive heap_ex Audio.init _ Hm).
Defined.

Lemma busca_sem_indice_e_indice_sem_corpus_witness :
  Audio.buscar_transcricoes encode_len l2_len Audio.init (py "gato") 5
    = Raise Audio.sem_indice
  ∧ RAG.recuperar_contexto encode_len l2_len RAG.init (py "gato") 5
    = Raise RAG.sem_indice
  ∧ Audio.criar_indice encode_len Audio.init = Raise Audio.sem_transcricoes
  ∧ RAG.criar_indice encode_len RAG.init = Raise RAG.sem_documentos.
Proof.
  destruct (busca_sem_indice_e_indice_sem_corpus encode_len l2_len
    Audio.init RAG.init (py "gato") 5) as (H1 & H2 & H3 & H4).
  split; [by apply H1|]. split; [by apply H2|].
  split; [by apply H3 | by apply H4].
Defined.

Lemma criar_indice_idempotente_witness :
  (∃ a1 a2,
     Audio.criar_indice encode_len audio_ex.2 = Ok a1
     ∧ Audio.criar_indice encode_len a1 = Ok a2
     ∧ Audio.indice a2 = Audio.indice a1
     ∧ Audio.indice a1 = Some (encode_len (Audio.transcricoes audio_ex.2))
     ∧ ∀ consulta k,
         Audio.buscar_transcricoes encode_len l2_len a2 consulta k
         = Audio.buscar_transcricoes encode_len l2_len a1 consulta k)
  ∧ (∃ r1 r2,
       RAG.criar_indice encode_len rag_ex = Ok r1
       ∧ RAG.criar_indice encode_len r1 = Ok r2
       ∧ RAG.indice r2 = RAG.indice r1
       ∧ RAG.indice r1 = Some (encode_len (RAG.chunks rag_ex))
       ∧ ∀ pergunta k,
           RAG.recuperar_contexto encode_len l2_len r2 pergunta k
           = RAG.recuperar_contexto encode_len l2_len r1 pergunta k).
Proof.
  destruct (criar_indice_idempotente encode_len l2_len audio_ex.2 rag_ex)
    as [Ha Hr].
  split; [apply Ha | apply Hr]; by vm_compute.
Defined.

(** ** Scenarios of the specification, run on the model *)

Example re_split_casos :
  re_split (py "") = [py ""]
  ∧ re_split (py "a.") = [py "a"; py ""]
  ∧ re_split (py "..A?! B") = [py ""; py "A"; py " B"]
  ∧ re_split (py "...") = [py ""; py ""].
Proof. by repeat split. Qed.

Example strip_casos :
  strip (py "  a b ") = py "a b" ∧ strip (py "   ") = py "".
Proof. by split. Qed.

(** All three sentences fit under the target and are merged. *)
Example chunk_abc :
  Chunker._dividir_em_chunks (py "A. B. C.") 100 = [py "A. B. C."].
Proof. reflexivity. Qed.

(** A sentence of the target size or more is kept whole, on its own. *)
Example chunk_sentenca_longa :
  Chunker._dividir_em_chunks (py "ab. cdefghij! kl?? mn") 6
  = [py "ab."; py "cdefghij."; py "kl."; py "mn."].
Proof. reflexivity. Qed.

(** The nearest unit comes first, at distance 0 and similarity 1. *)
Example busca_um_resultado :
  Audio.buscar_transcricoes encode_len l2_len audio_ex_indexado (py "gato") 1
  = Ok [Audio.Resultado 1 (py "gato") 1%positive 0 1].
Proof. vm_compute. reflexivity. Qed.

(** * Part IV: further properties of the code *)

(** ** More on the chunker *)

Section chunker_mais.
Import Chunker.
Implicit Types (texto s : str) (T : Z) (g : list str).

Lemma juntar_app g1 g2 : juntar (g1 ++ g2) = juntar g1 ++ juntar g2.
Proof. unfold juntar. by rewrite fmap_app, concat_app. Qed.

Lemma juntar_cons s g : juntar (s :: g) = s ++ py ". " ++ juntar g.
Proof. unfold juntar. simpl. by rewrite <- app_assoc. Qed.

Lemma frase_sem_exclamacao s :
  frase s → Forall (λ c : char, c ≠ 33%N ∧ c ≠ 63%N) s.
Proof.
  intros (_ & _ & Hs). eapply Forall_impl; [exact Hs|].
  intros c Hc. split; intros ->; discriminate.
Qed.

Lemma juntar_sem_exclamacao g :
  Forall frase g → Forall (λ c : char, c ≠ 33%N ∧ c ≠ 63%N) (juntar g).
Proof.
  induction 1 as [|s g Hs _ IH]; [constructor|].
  rewrite juntar_cons. apply Forall_app. split; [by apply frase_sem_exclamacao|].
  apply Forall_app. split; [|done]. by repeat constructor.
Qed.

(** Every chunk is trimmed, ends with a period, and holds no ['!'] and no
    ['?']: the punctuation a sentence ended with is replaced by a period. *)
Theorem chunks_normalizados texto T :
  Forall (λ c : str,
      strip c = c ∧ last c = Some 46%N
      ∧ Forall (λ ch : char, ch ≠ 33%N ∧ ch ≠ 63%N) c)
    (_dividir_em_chunks texto T).
Proof.
  destruct (dividir_grupos texto T) as (gs & -> & _ & Hgs).
  apply Forall_fmap. eapply Forall_impl; [exact Hgs|].
  intros g (Hne & Hg & _). simpl. split; [apply strip_strip|]. split.
  - destruct g as [|s g0 _] using rev_ind; [done|].
    apply Forall_app in Hg as [Hg0 Hs]. inversion Hs; subst.
    rewrite chunk_de_snoc by done.
    change (py ".") with [46%N]. by rewrite !app_assoc, last_snoc.
  - by apply strip_Forall, juntar_sem_exclamacao.
Qed.

(** There are at most as many chunks as sentences, and none exactly when
    the text has no sentence. *)
Theorem contagem_de_chunks texto T :
  (length (_dividir_em_chunks texto T) ≤ length (sentencas texto))%nat
  ∧ (_dividir_em_chunks texto T = [] ↔ sentencas texto = []).
Proof.
  split; [|apply dividir_vazio_sse].
  destruct (dividir_grupos texto T) as (gs & -> & <- & Hgs).
  rewrite length_fmap. induction Hgs as [|g gs (Hne & _) _ IH]; [done|].
  simpl. rewrite length_app. destruct g; [done|]. simpl. lia.
Qed.

(** With a target size of 1 or less every sentence is a chunk of its own. *)
Theorem um_chunk_por_sentenca texto T :
  T ≤ 1 →
  _dividir_em_chunks texto T = (λ s, s ++ py ".") <$> sentencas texto.
Proof.
  intros HT. destruct (dividir_grupos texto T) as (gs & -> & <- & Hgs).
  induction Hgs as [|g gs (Hne & Hg & Htam) _ IH]; [done|].
  assert (∃ s, g = [s]) as [s ->].
  { destruct Htam as [Hlen|(s & -> & _)]; [|by exists s].
    destruct g as [|s g]; [done|]. exfalso.
    inversion Hg as [|?? (Hs & _) _]; subst.
    rewrite juntar_cons, !length_app in Hlen.
    change (length (py ". ")) with 2%nat in Hlen.
    destruct s; [done|]. simpl in Hlen. lia. }
  inversion Hg; subst. rewrite fmap_cons, IH. simpl.
  by rewrite chunk_de_um.
Qed.

Lemma um_chunk_por_sentenca_witness :
  0 ≤ 1
  ∧ _dividir_em_chunks (py "Oi! Tudo bem? Sim.") 0
    = (λ s, s ++ py ".") <$> sentencas (py "Oi! Tudo bem? Sim.").
Proof.
  split; [lia|]. apply (um_chunk_por_sentenca (py "Oi! Tudo bem? Sim.") 0). lia.
Defined.

(** While everything fits, the loop only extends the buffer. *)
Lemma fold_passo_cabe T (ps : list str) : ∀ g,
  Z.of_nat (length (juntar (g ++ filter (λ s : str, s ≠ []) (strip <$> ps)))) < T + 2 →
  fold_left (passo T) ps (Estado [] (juntar g))
  = Estado [] (juntar (g ++ filter (λ s : str, s ≠ []) (strip <$> ps))).
Proof.
  induction ps as [|p ps IH]; intros g Hlen.
  - simpl. by rewrite app_nil_r.
  - rewrite fmap_cons in *. cbn [fold_left]. unfold passo at 2.
    destruct (strip p) as [|c s'] eqn:Hs.
    + rewrite filter_cons_False in * by (by intros ?). by apply IH.
    + rewrite filter_cons_True in * by done.
      set (s := c :: s') in *. clearbody s. simpl chunk_atual. simpl chunks.
      rewrite (cons_middle s g), (app_assoc g [s]) in Hlen |- *.
      specialize (IH (g ++ [s]) Hlen).
      rewrite juntar_app, juntar_snoc, !length_app in Hlen.
      change (length (py ". ")) with 2%nat in Hlen.
      destruct (Z.ltb_spec (Z.of_nat (length (juntar g ++ s))) T) as [_|Hge].
      * rewrite <- IH. by rewrite juntar_snoc.
      * rewrite length_app in Hge. lia.
Qed.

(** A text whose sentences, each with its period and a space between, stay
    under the target size gives one chunk holding all of them. *)
Theorem chunk_unico texto T :
  sentencas texto ≠ [] →
  Z.of_nat (length (juntar (sentencas texto))) < T + 2 →
  _dividir_em_chunks texto T = [chunk_de (sentencas texto)].
Proof.
  intros Hne Hlen. unfold _dividir_em_chunks.
  change (Estado [] []) with (Estado [] (juntar [])).
  rewrite fold_passo_cabe by exact Hlen. cbn [app].
  fold (sentencas texto). unfold salvar. simpl.
  destruct (juntar (sentencas texto)) eqn:Hj; [|by rewrite <- Hj].
  by apply juntar_nil_inv in Hj.
Qed.

Lemma chunk_unico_witness :
  sentencas (py "A. B. C.") ≠ []
  ∧ Z.of_nat (length (juntar (sentencas (py "A. B. C.")))) < 100 + 2
  ∧ _dividir_em_chunks (py "A. B. C.") 100 = [chunk_de (sentencas (py "A. B. C."))].
Proof.
  assert (sentencas (py "A. B. C.") ≠ []) as H1 by (vm_compute; discriminate).
  assert (Z.of_nat (length (juntar (sentencas (py "A. B. C.")))) < 100 + 2) as H2
    by (vm_compute; reflexivity).
  split; [exact H1|]. split; [exact H2|].
  exact (chunk_unico (py "A. B. C.") 100 H1 H2).
Defined.

End chunker_mais.

(** ** The document store as a function of its documents *)

Section rag_mais.
Context {vec : Type}.
Implicit Types (self : @RAG.SistemaRAG vec) (md : gmap string pyval)
  (texto titulo : str) (d : RAG.documento).

Lemma fold_anexar_exato (doc_id : Z) titulo md (cs : list str) :
  ∀ (f : nat → Z) self,
    fold_left (RAG.anexar doc_id titulo md) (imap (λ i x, (f i, x)) cs) self
    = RAG.Sistema (RAG.documentos self) (RAG.chunks self ++ cs)
        (RAG.metadados self
           ++ imap (λ j _, RAG.chunk_metadados doc_id (f j) titulo md) cs)
        (RAG.indice self).
Proof.
  induction cs as [|c cs IH]; intros f self.
  - simpl. rewrite !app_nil_r. by destruct self.
  - cbn [imap fold_left]. rewrite (IH (f ∘ S)). simpl.
    by rewrite <- !app_assoc.
Qed.

(** A call appends the document, under the next identifier, then the chunks
    of its text with one record each, numbered from 0; what the store held
    and the index are left as they were. *)
Theorem adicionar_documento_efeito texto titulo (marg : option (gmap string pyval)) self :
  let d := RAG.Documento (Z.of_nat (length (RAG.documentos self))) titulo texto
             (default ∅ marg) in
  RAG.adicionar_documento texto titulo marg self
  = RAG.Sistema (RAG.documentos self ++ [d])
      (RAG.chunks self ++ Chunker._dividir_em_chunks texto 500)
      (RAG.metadados self ++ registros_do_documento d)
      (RAG.indice self).
Proof.
  intros d. unfold RAG.adicionar_documento, enumerate.
  by rewrite fold_anexar_exato.
Qed.

Lemma chamar_determinado self (c : RAG.chamada) :
  determinado_pelos_documentos self →
  determinado_pelos_documentos (RAG.chamar self c).
Proof.
  intros (Hid & Hc & Hm). unfold RAG.chamar, RAG.adicionar_documento, enumerate.
  rewrite fold_anexar_exato. split; [|split]; simpl.
  - intros i d Hi. apply lookup_app_Some in Hi as [Hi|[Hge Hi]]; [by apply Hid|].
    apply list_lookup_singleton_Some in Hi as [Hi <-]. simpl. f_equal. lia.
  - rewrite fmap_app, concat_app, <- Hc. simpl. by rewrite app_nil_r.
  - rewrite fmap_app, concat_app, <- Hm. simpl. by rewrite app_nil_r.
Qed.

Lemma executar_determinado (cs : list RAG.chamada) : ∀ self,
  determinado_pelos_documentos self →
  determinado_pelos_documentos (RAG.executar cs self)
  ∧ length (RAG.documentos (RAG.executar cs self))
    = (length (RAG.documentos self) + length cs)%nat.
Proof.
  induction cs as [|c cs IH]; intros self Hinv.
  - split; [done | simpl; lia].
  - destruct (IH (RAG.chamar self c) (chamar_determinado _ _ Hinv)) as [H1 H2].
    split; [exact H1|]. unfold RAG.executar in *. cbn [fold_left].
    rewrite H2. unfold RAG.chamar, RAG.adicionar_documento, enumerate.
    rewrite fold_anexar_exato. simpl.
    rewrite length_app. simpl. lia.
Qed.

(** After any sequence of calls on a new system there is one document per
    call, document [i] has identifier [i], and the chunk and metadata lists
    are the chunks and records of the documents, in order. *)
Theorem armazem_de_documentos (cs : list RAG.chamada) :
  let rag := RAG.executar (vec := vec) cs RAG.init in
  length (RAG.documentos rag) = length cs
  ∧ (∀ (i : nat) d, RAG.documentos rag !! i = Some d → RAG.doc_id d = Z.of_nat i)
  ∧ RAG.chunks rag
    = concat ((λ d, Chunker._dividir_em_chunks (RAG.doc_texto d) 500)
                <$> RAG.documentos rag)
  ∧ RAG.metadados rag = concat (registros_do_documento <$> RAG.documentos rag).
Proof.
  intros rag.
  destruct (executar_determinado cs (RAG.init (vec := vec))) as [(H1 & H2 & H3) H4].
  { split; [by intros i d ?|]. by split. }
  split; [exact H4|]. by repeat split.
Qed.

Lemma chunk_metadados_chaves (doc_id i : Z) titulo md :
  let r := RAG.chunk_metadados doc_id i titulo md in
  (∀ (k : string) v, md !! k = Some v → r !! k = Some v)
  ∧ r !! "doc_id" = Some (default (PyInt doc_id) (md !! "doc_id"))
  ∧ r !! "chunk_id" = Some (default (PyInt i) (md !! "chunk_id"))
  ∧ r !! "titulo" = Some (default (PyStr titulo) (md !! "titulo")).
Proof.
  unfold RAG.chunk_metadados. split; [|split; [|split]].
  - intros k v Hk. by apply lookup_union_Some_l.
  - rewrite lookup_union. destruct (md !! "doc_id"); by simplify_map_eq.
  - rewrite lookup_union. destruct (md !! "chunk_id"); by simplify_map_eq.
  - rewrite lookup_union. destruct (md !! "titulo"); by simplify_map_eq.
Qed.

(** Every stored record belongs to a stored document: it has the keys
    ['doc_id'], ['chunk_id'] and ['titulo'] (so reading them never fails),
    with the document's identifier and title unless the document's metadata
    uses these keys, and it carries every entry of the document's metadata. *)
Theorem registros_completos (cs : list RAG.chamada) (r : gmap string pyval) :
  r ∈ RAG.metadados (RAG.executar (vec := vec) cs RAG.init) →
  ∃ d (j : nat),
    d ∈ RAG.documentos (RAG.executar (vec := vec) cs RAG.init)
    ∧ (j < length (Chunker._dividir_em_chunks (RAG.doc_texto d) 500))%nat
    ∧ (∀ (k : string) v, RAG.doc_metadados d !! k = Some v → r !! k = Some v)
    ∧ r !! "doc_id"
      = Some (default (PyInt (RAG.doc_id d)) (RAG.doc_metadados d !! "doc_id"))
    ∧ r !! "chunk_id"
      = Some (default (PyInt (Z.of_nat j)) (RAG.doc_metadados d !! "chunk_id"))
    ∧ r !! "titulo"
      = Some (default (PyStr (RAG.doc_titulo d)) (RAG.doc_metadados d !! "titulo")).
Proof.
  destruct (executar_determinado cs (RAG.init (vec := vec))) as [(_ & _ & ->) _].
  { split; [by intros i d ?|]. by split. }
  intros Hr. apply list_elem_of_In, in_concat in Hr as (rs & Hrs & Hr).
  apply list_elem_of_In, list_elem_of_fmap in Hrs as (d & -> & Hd).
  apply list_elem_of_In in Hr. unfold registros_do_documento in Hr.
  apply elem_of_lookup_imap in Hr as (j & c & -> & Hj).
  exists d, j. split; [done|]. split; [by eapply lookup_lt_Some|].
  apply chunk_metadados_chaves.
Qed.

End rag_mais.

Lemma registros_completos_witness :
  ∃ r : gmap string pyval,
    r ∈ RAG.metadados (RAG.executar (vec := Z) documentos_ex RAG.init)
    ∧ ∃ d (j : nat),
      d ∈ RAG.documentos (RAG.executar (vec := Z) documentos_ex RAG.init)
      ∧ (j < length (Chunker._dividir_em_chunks (RAG.doc_texto d) 500))%nat
      ∧ (∀ (k : string) v, RAG.doc_metadados d !! k = Some v → r !! k = Some v)
      ∧ r !! "doc_id"
        = Some (default (PyInt (RAG.doc_id d)) (RAG.doc_metadados d !! "doc_id"))
      ∧ r !! "chunk_id"
        = Some (default (PyInt (Z.of_nat j)) (RAG.doc_metadados d !! "chunk_id"))
      ∧ r !! "titulo"
        = Some (default (PyStr (RAG.doc_titulo d)) (RAG.doc_metadados d !! "titulo")).
Proof.
  exists (RAG.chunk_metadados 0 0 (py "doc") ∅).
  assert (RAG.chunk_metadados 0 0 (py "doc") ∅
          ∈ RAG.metadados (RAG.executar (vec := Z) documentos_ex RAG.init)) as Hr.
  { vm_compute. left. }
  split; [exact Hr|].
  exact (registros_completos (vec := Z) documentos_ex _ Hr).
Defined.

(** ** Invariant of the stores *)

Section armazens.
Context {vec : Type}.
Implicit Types (self : @RAG.SistemaRAG vec) (ds : list RAG.chamada).






End armazens.


(** ** More on search *)

Section busca_mais.
Context {vec : Type} (encode : list str → list vec) (l2 : vec → vec → Q).
Implicit Types (self : @Audio.AudioEmbeddingSystem vec) (idx : list vec)
  (consulta : str) (k : Z) (v : vec).

Lemma StronglySorted_lookup_lt {A} (R : relation A) (l : list A) :
  StronglySorted R l →
  ∀ (i j : nat) x y, (i < j)%nat → l !! i = Some x → l !! j = Some y → R x y.
Proof.
  induction 1 as [|a l Hl IH Ha]; intros i j x y Hij Hi Hj; [done|].
  destruct j as [|j]; [lia|]. simpl in Hj. destruct i as [|i].
  - injection Hi as <-. apply (proj1 (Forall_forall _ _) Ha).
    by eapply list_elem_of_lookup_2.
  - simpl in Hi. apply (IH i j); [lia|done..].
Qed.

Lemma hit_le_distancia (a b : Q * Z) : faiss.hit_le a b → (a.1 <= b.1)%Q.
Proof.
  intros [H|[H _]]%hit_le_spec; [by apply Qlt_le_weak | done].
Qed.


(** The results of the loop, position by position. *)
Lemma mapM_imap_lookup {A B} (g : Z * A → res B) (hs : list A) :
  ∀ (f : nat → Z) (rs : list B),
    mapM g (imap (λ i x, (f i, x)) hs) = Ok rs →
    ∀ (j : nat) r, rs !! j = Some r →
      ∃ h, hs !! j = Some h ∧ g (f j, h) = Ok r.
Proof.
  induction hs as [|h hs IH]; intros f rs Hrs j r Hj.
  - injection Hrs as <-. done.
  - change (g (f 0%nat, h) ≫= (λ y,
              mapM g (imap (λ i x, ((f ∘ S) i, x)) hs) ≫= (λ ys, mret (y :: ys)))
            = Ok rs) in Hrs.
    destruct (g (f 0%nat, h)) as [r0|e] eqn:Hg; [|done].
    destruct (mapM g (imap (λ i x, ((f ∘ S) i, x)) hs)) as [rs'|e] eqn:Hm;
      [|done].
    injection Hrs as <-. destruct j as [|j].
    + injection Hj as <-. by exists h.
    + simpl in Hj. by apply (IH (f ∘ S) rs' Hm j r Hj).
Qed.

Lemma montar_posicao self (pos : Z) (h : Q * Z) r :
  Audio.montar self (pos, h) = Ok r → Audio.posicao r = pos + 1.
Proof.
  unfold Audio.montar. destruct h as [d id].
  destruct (py_index (Audio.transcricoes self) id); [|done].
  destruct (py_index (Audio.metadados self) id); [|done].
  simpl. by intros [= <-].
Qed.

Lemma adicionar_transcricao_listas agora t (m : option loc) (σ : heap) self :
  ∃ l,
    (Audio.adicionar_transcricao agora t m σ self).1.2
    = Audio.Sistema (Audio.transcricoes self ++ [t])
        (Audio.metadados self ++ [l]) (Audio.indice self).
Proof. destruct m as [l|]; eexists; reflexivity. Qed.

(** Every reachable system is coherent. *)
Lemma alcancavel_coerente self :
  (∀ ts, length (encode ts) = length ts) →
  alcancavel encode self → coerente self.
Proof.
  intros Hrows. induction 1 as [|self agora t m σ _ [Hlen Hidx]|self self' _ [Hlen Hidx] Hc].
  - split; [done|]. by intros idx.
  - destruct (adicionar_transcricao_listas agora t m σ self) as [l ->].
    split; simpl.
    + rewrite !length_app. simpl. lia.
    + intros idx Hi. specialize (Hidx idx Hi). rewrite length_app. simpl. lia.
  - unfold Audio.criar_indice in Hc.
    destruct (Audio.transcricoes self) as [|t0 ts] eqn:Ets; [done|].
    injection Hc as <-. split; simpl; [done|].
    intros idx [= <-]. rewrite Hrows. simpl. lia.
Qed.

(** The index of a reachable system is a snapshot: the embeddings of the
    transcriptions that were stored when it was built, which are still the
    first ones of the store. The two lists of the store are parallel. *)
Theorem indice_e_instantaneo self :
  alcancavel encode self →
  length (Audio.transcricoes self) = length (Audio.metadados self)
  ∧ ∀ idx, Audio.indice self = Some idx →
      ∃ n : nat,
        (0 < n ≤ length (Audio.transcricoes self))%nat
        ∧ idx = encode (take n (Audio.transcricoes self)).
Proof.
  induction 1 as [|self agora t m σ _ [Hlen Hidx]|self self' _ [Hlen Hidx] Hc].
  - split; [done|]. by intros idx.
  - destruct (adicionar_transcricao_listas agora t m σ self) as [l ->].
    split; simpl.
    + rewrite !length_app. simpl. lia.
    + intros idx Hi. destruct (Hidx idx Hi) as (n & Hn & ->).
      exists n. rewrite length_app, take_app_le by lia. split; [lia | done].
  - unfold Audio.criar_indice in Hc.
    destruct (Audio.transcricoes self) as [|t0 ts] eqn:Ets; [done|].
    injection Hc as <-. split; simpl; [done|].
    intros idx [= <-]. exists (length (t0 :: ts)).
    split; [simpl; lia | by rewrite firstn_all].
Qed.



End busca_mais.
(** The example system is reachable and its embedding keeps the rows. *)
Lemma audio_ex_alcancavel : alcancavel encode_len audio_ex_indexado.
Proof.
  apply (alc_criar_indice encode_len audio_ex.2); [|vm_compute; reflexivity].
  change (alcancavel encode_len
    (Audio.adicionar_transcricao (vec := Z) (py "t1") (py "cachorro") None
       (Audio.adicionar_transcricao (vec := Z) (py "t0") (py "gato") None ∅
          Audio.init).1.1
       (Audio.adicionar_transcricao (vec := Z) (py "t0") (py "gato") None ∅
          Audio.init).1.2).1.2).
  do 2 apply alc_adicionar. apply alc_init.
Qed.

Lemma encode_len_linhas ts : length (encode_len ts) = length ts.
Proof. unfold encode_len. apply length_fmap. Qed.

Lemma indice_e_instantaneo_witness :
  alcancavel encode_len audio_ex_indexado
  ∧ length (Audio.transcricoes audio_ex_indexado)
    = length (Audio.metadados audio_ex_indexado)
  ∧ ∀ idx, Audio.indice audio_ex_indexado = Some idx →
      ∃ n : nat,
        (0 < n ≤ length (Audio.transcricoes audio_ex_indexado))%nat
        ∧ idx = encode_len (take n (Audio.transcricoes audio_ex_indexado)).
Proof.
  split; [exact audio_ex_alcancavel|].
  exact (indice_e_instantaneo encode_len audio_ex_indexado audio_ex_alcancavel).
Defined.

Section busca_teoremas.
Context {vec : Type} (encode : list str → list vec) (l2 : vec → vec → Q).
Implicit Types (self : @Audio.AudioEmbeddingSystem vec) (idx : list vec)
  (consulta : str) (k : Z) (v : vec).

(** For [1 <= k <= n], with [n] the size of the index, the search returns
    [k] results in order of non-decreasing distance, each one the text and
    the metadata reference of an indexed unit. *)
Theorem busca_ordenada self idx consulta k :
  (∀ ts, length (encode ts) = length ts) →
  Audio.indice self = Some idx →
  (length idx ≤ length (Audio.transcricoes self))%nat →
  length (Audio.transcricoes self) = length (Audio.metadados self) →
  1 ≤ k ≤ Z.of_nat (length idx) →
  ∃ rs,
    Audio.buscar_transcricoes encode l2 self consulta k = Ok rs
    ∧ length rs = Z.to_nat k
    ∧ (∀ (i j : nat) ri rj, (i ≤ j)%nat →
         rs !! i = Some ri → rs !! j = Some rj →
         (Audio.distancia ri <= Audio.distancia rj)%Q)
    ∧ ∀ r, r ∈ rs →
        ∃ i : nat, (i < length idx)%nat
          ∧ Audio.transcricoes self !! i = Some (Audio.transcricao r)
          ∧ Audio.metadados self !! i = Some (Audio.r_metadados r).
Proof.
  intros Hrows Hidx Hn Hlen Hk.
  destruct (buscar_dentro_do_corpus encode l2 self idx consulta k)
    as (v & hits & resto & rs & _ & E & Hl & Hperm & Hsort & HF); [done..|].
  exists rs. split; [done|]. split; [done|]. split.
  - intros i j ri rj Hij Hi Hj.
    destruct (Forall2_lookup_r _ _ _ _ _ HF Hi) as (hi & Hhi & _ & _ & _ & _ & ->).
    destruct (Forall2_lookup_r _ _ _ _ _ HF Hj) as (hj & Hhj & _ & _ & _ & _ & ->).
    destruct (decide (i = j)) as [->|Hne].
    { rewrite Hhi in Hhj. injection Hhj as ->. apply Qle_refl. }
    apply hit_le_distancia.
    apply Sorted_StronglySorted in Hsort; [|apply hit_le_trans].
    apply StronglySorted_app_1_l in Hsort.
    apply (StronglySorted_lookup_lt _ _ Hsort i j); [lia|done..].
  - intros r Hr. apply list_elem_of_lookup in Hr as [j Hj].
    destruct (Forall2_lookup_r _ _ _ _ _ HF Hj) as (h & Hh & i & Hi & Ht & Hm & _).
    exists i. split; [|done].
    assert (h ∈ candidatos l2 idx v) as Hc.
    { rewrite <- Hperm. apply elem_of_app. left. by eapply list_elem_of_lookup_2. }
    apply candidatos_elem in Hc as (i' & x & Hx & ->). simpl in Hi.
    apply Nat2Z.inj in Hi as ->. by eapply lookup_lt_Some.
Qed.

Lemma busca_k_n_cobre self idx consulta :
  (∀ ts, length (encode ts) = length ts) →
  Audio.indice self = Some idx →
  (0 < length idx ≤ length (Audio.transcricoes self))%nat →
  length (Audio.transcricoes self) = length (Audio.metadados self) →
  ∃ rs,
    Audio.buscar_transcricoes encode l2 self consulta (Z.of_nat (length idx))
      = Ok rs
    ∧ length rs = length idx
    ∧ ∀ (i : nat) t m, (i < length idx)%nat →
        Audio.transcricoes self !! i = Some t →
        Audio.metadados self !! i = Some m →
        ∃ r, r ∈ rs ∧ Audio.transcricao r = t ∧ Audio.r_metadados r = m.
Proof.
  intros Hrows Hidx Hn Hlen.
  destruct (buscar_dentro_do_corpus encode l2 self idx consulta
              (Z.of_nat (length idx)))
    as (v & hits & resto & rs & _ & E & Hl & Hperm & _ & HF);
    [done | done | lia | done | lia |].
  rewrite Nat2Z.id in Hl.
  exists rs. split; [done|]. split; [done|].
  intros i t m Hi Ht Hm.
  assert (resto = []) as ->.
  { apply nil_length_inv. apply Permutation_length in Hperm.
    apply Forall2_length in HF.
    unfold candidatos in Hperm. rewrite length_app, length_imap in Hperm. lia. }
  rewrite app_nil_r in Hperm.
  destruct (lookup_lt_is_Some_2 idx i Hi) as [x Hx].
  assert ((l2 v x, Z.of_nat i) ∈ hits) as Hh.
  { rewrite Hperm. unfold candidatos.
    by apply (elem_of_lookup_imap_2 (λ i v', (l2 v v', Z.of_nat i))). }
  apply list_elem_of_lookup in Hh as [j Hj].
  destruct (Forall2_lookup_l _ _ _ _ _ HF Hj) as (r & Hr & i' & Hi' & Ht' & Hm' & _).
  simpl in Hi'. apply Nat2Z.inj in Hi' as <-.
  exists r. split; [by eapply list_elem_of_lookup_2|].
  rewrite Ht in Ht'. rewrite Hm in Hm'. by injection Ht' as ->; injection Hm' as ->.
Qed.

(** With [k = n] the search returns every indexed unit: [n] results, among
    them, for each position below [n], the text and the metadata reference
    stored there. *)
Theorem busca_completa self idx consulta :
  (∀ ts, length (encode ts) = length ts) →
  Audio.indice self = Some idx →
  (0 < length idx ≤ length (Audio.transcricoes self))%nat →
  length (Audio.transcricoes self) = length (Audio.metadados self) →
  ∃ rs,
    Audio.buscar_transcricoes encode l2 self consulta (Z.of_nat (length idx))
      = Ok rs
    ∧ length rs = length idx
    ∧ ∀ (i : nat), (i < length idx)%nat →
        ∃ r t m, r ∈ rs
          ∧ Audio.transcricoes self !! i = Some t
          ∧ Audio.metadados self !! i = Some m
          ∧ Audio.transcricao r = t ∧ Audio.r_metadados r = m.
Proof.
  intros Hrows Hidx Hn Hlen.
  destruct (busca_k_n_cobre self idx consulta Hrows Hidx Hn Hlen)
    as (rs & E & Hl & Hc).
  exists rs. split; [done|]. split; [done|]. intros i Hi.
  destruct (lookup_lt_is_Some_2 (Audio.transcricoes self) i) as [t Ht]; [lia|].
  destruct (lookup_lt_is_Some_2 (Audio.metadados self) i) as [m Hm]; [lia|].
  destruct (Hc i t m Hi Ht Hm) as (r & Hr & <- & <-).
  by exists r, (Audio.transcricao r), (Audio.r_metadados r).
Qed.


(** On every reachable system with an index a search with [k >= 1]
    succeeds: it returns exactly [k] results, numbered from 1 in order. *)
Theorem busca_apos_indice self consulta k :
  (∀ ts, length (encode ts) = length ts) →
  alcancavel encode self →
  is_Some (Audio.indice self) →
  1 ≤ k →
  ∃ rs,
    Audio.buscar_transcricoes encode l2 self consulta k = Ok rs
    ∧ length rs = Z.to_nat k
    ∧ ∀ (j : nat) r, rs !! j = Some r → Audio.posicao r = Z.of_nat j + 1.
Proof.
  intros Hrows Halc [idx Hidx] Hk.
  destruct (alcancavel_coerente encode self Hrows Halc) as [Hlen Hcoe].
  specialize (Hcoe idx Hidx).
  destruct (buscar_juncao encode l2 self idx consulta k)
    as (v & rs & Hv & E & Hl & _); [done | done | lia | done | | done |].
  { intros Hnil. rewrite Hnil in Hcoe. simpl in Hcoe. lia. }
  exists rs. split; [done|]. split; [done|].
  intros j r Hj.
  rewrite (buscar_forma encode l2 self idx consulta k v) in E by (done || lia).
  destruct (mapM_imap_lookup _ _ Z.of_nat rs E j r Hj) as (h & _ & Hm).
  by apply montar_posicao in Hm.
Qed.

Lemma do_falante_spec (σ : heap) (alvo : str) (r : Audio.resultado) :
  Audio.do_falante σ alvo r = true
  ↔ (σ !!! Audio.r_metadados r : gmap string pyval) !! "falante"
    = Some (PyStr alvo).
Proof.
  unfold Audio.do_falante.
  destruct ((σ !!! Audio.r_metadados r : gmap string pyval) !! "falante")
    as [[| | |s]|]; try (split; [discriminate | by intros [=]]).
  rewrite bool_decide_eq_true. split; [by intros -> | by intros [=]].
Qed.

(** The speaker filter after a search with [k = n]: the filtered results
    are search results, in the order of the search; each one's dictionary
    has the speaker asked for; and every indexed unit whose dictionary has
    that speaker is among them. *)
Theorem filtro_por_falante self idx consulta (σ : heap) (alvo : str) :
  (∀ ts, length (encode ts) = length ts) →
  Audio.indice self = Some idx →
  (0 < length idx ≤ length (Audio.transcricoes self))%nat →
  length (Audio.transcricoes self) = length (Audio.metadados self) →
  ∃ rs,
    Audio.buscar_transcricoes encode l2 self consulta (Z.of_nat (length idx))
      = Ok rs
    ∧ Audio.resultados_filtrados σ alvo rs `sublist_of` rs
    ∧ (∀ r, r ∈ Audio.resultados_filtrados σ alvo rs →
         (σ !!! Audio.r_metadados r : gmap string pyval) !! "falante"
         = Some (PyStr alvo))
    ∧ ∀ (i : nat) t m (d : gmap string pyval), (i < length idx)%nat →
        Audio.transcricoes self !! i = Some t →
        Audio.metadados self !! i = Some m →
        σ !! m = Some d →
        d !! "falante" = Some (PyStr alvo) →
        ∃ r, r ∈ Audio.resultados_filtrados σ alvo rs
             ∧ Audio.transcricao r = t ∧ Audio.r_metadados r = m.
Proof.
  intros Hrows Hidx Hn Hlen.
  destruct (busca_k_n_cobre self idx consulta Hrows Hidx Hn Hlen)
    as (rs & E & Hl & Hc).
  exists rs. split; [done|]. unfold Audio.resultados_filtrados.
  split; [apply sublist_filter|]. split.
  - intros r [Hr _]%list_elem_of_filter. by apply do_falante_spec.
  - intros i t m d Hi Ht Hm Hd Hf.
    destruct (Hc i t m Hi Ht Hm) as (r & Hr & <- & <-).
    exists r. split; [|done]. apply list_elem_of_filter. split; [|done].
    apply do_falante_spec. by rewrite (lookup_total_correct _ _ _ Hd).
Qed.

End busca_teoremas.

Lemma busca_ordenada_witness :
  (1 ≤ 2 ≤ Z.of_nat (length [4; 8]))
  ∧ ∃ rs,
    Audio.buscar_transcricoes encode_len l2_len audio_ex_indexado (py "gato") 2
      = Ok rs
    ∧ length rs = Z.to_nat 2
    ∧ (∀ (i j : nat) ri rj, (i ≤ j)%nat →
         rs !! i = Some ri → rs !! j = Some rj →
         (Audio.distancia ri <= Audio.distancia rj)%Q)
    ∧ ∀ r, r ∈ rs →
        ∃ i : nat, (i < length [4; 8])%nat
          ∧ Audio.transcricoes audio_ex_indexado !! i = Some (Audio.transcricao r)
          ∧ Audio.metadados audio_ex_indexado !! i = Some (Audio.r_metadados r).
Proof.
  assert (1 ≤ 2 ≤ Z.of_nat (length [4; 8])) as Hk by (simpl; lia).
  split; [exact Hk|].
  apply (busca_ordenada encode_len l2_len audio_ex_indexado [4; 8] (py "gato") 2
           encode_len_linhas).
  - reflexivity.
  - vm_compute. lia.
  - reflexivity.
  - exact Hk.
Defined.

Lemma busca_completa_witness :
  (0 < length [4; 8] ≤ length (Audio.transcricoes audio_ex_indexado))%nat
  ∧ ∃ rs,
    Audio.buscar_transcricoes encode_len l2_len audio_ex_indexado (py "gato")
      (Z.of_nat (length [4; 8])) = Ok rs
    ∧ length rs = length [4; 8]
    ∧ ∀ (i : nat), (i < length [4; 8])%nat →
        ∃ r t m, r ∈ rs
          ∧ Audio.transcricoes audio_ex_indexado !! i = Some t
          ∧ Audio.metadados audio_ex_indexado !! i = Some m
          ∧ Audio.transcricao r = t ∧ Audio.r_metadados r = m.
Proof.
  assert (0 < length [4; 8] ≤ length (Audio.transcricoes audio_ex_indexado))%nat
    as Hn by (vm_compute; lia).
  split; [exact Hn|].
  apply (busca_completa encode_len l2_len audio_ex_indexado [4; 8] (py "gato")
           encode_len_linhas); [reflexivity | exact Hn | reflexivity].
Defined.

Lemma filtro_por_falante_witness :
  ∃ rs,
    Audio.buscar_transcricoes encode_len l2_len audio_ex_indexado (py "gato")
      (Z.of_nat (length [4; 8])) = Ok rs
    ∧ Audio.resultados_filtrados heap_ana (py "Ana") rs `sublist_of` rs
    ∧ (∀ r, r ∈ Audio.resultados_filtrados heap_ana (py "Ana") rs →
         (heap_ana !!! Audio.r_metadados r : gmap string pyval) !! "falante"
         = Some (PyStr (py "Ana")))
    ∧ ∀ (i : nat) t m (d : gmap string pyval), (i < length [4; 8])%nat →
        Audio.transcricoes audio_ex_indexado !! i = Some t →
        Audio.metadados audio_ex_indexado !! i = Some m →
        heap_ana !! m = Some d →
        d !! "falante" = Some (PyStr (py "Ana")) →
        ∃ r, r ∈ Audio.resultados_filtrados heap_ana (py "Ana") rs
             ∧ Audio.transcricao r = t ∧ Audio.r_metadados r = m.
Proof.
  apply (filtro_por_falante encode_len l2_len audio_ex_indexado [4; 8] (py "gato")
           heap_ana (py "Ana") encode_len_linhas);
    [reflexivity | vm_compute; lia | reflexivity].
Defined.


Lemma busca_apos_indice_witness :
  is_Some (Audio.indice audio_ex_indexado)
  ∧ ∃ rs,
    Audio.buscar_transcricoes encode_len l2_len audio_ex_indexado (py "gato") 5
      = Ok rs
    ∧ length rs = Z.to_nat 5
    ∧ ∀ (j : nat) r, rs !! j = Some r → Audio.posicao r = Z.of_nat j + 1.
Proof.
  assert (is_Some (Audio.indice audio_ex_indexado)) as Hidx by (by eexists).
  split; [exact Hidx|].
  apply (busca_apos_indice encode_len l2_len audio_ex_indexado (py "gato") 5
           encode_len_linhas audio_ex_alcancavel Hidx).
  lia.
Defined.

(** ** The simulated answer *)

Section resposta.
Context {vec : Type} (encode : list str → list vec) (l2 : vec → vec → Q).
Implicit Types (pergunta : str) (contexto : list RAG.contexto_item)
  (self : @RAG.SistemaRAG vec).

Lemma gerar_resposta_comprimento pergunta contexto :
  ∃ n : nat,
    (n ≤ 500)%nat ∧ (n ≤ length (texto_do_contexto contexto))%nat
    ∧ (n = 500 ∨ n = length (texto_do_contexto contexto))%nat
    ∧ length (RAG.gerar_resposta pergunta contexto)
      = (182 + length pergunta + n)%nat.
Proof.
  exists (500 `min` length (texto_do_contexto contexto))%nat.
  split; [lia|]. split; [lia|]. split; [lia|].
  unfold RAG.gerar_resposta. fold (texto_do_contexto contexto).
  rewrite !length_app, length_take.
  set (m := (500 `min` _)%nat). clearbody m. simpl. lia.
Qed.

(** The answer is the 182 characters of the template, the question, and
    the context cut at 500 characters. *)
Theorem gerar_resposta_tamanho pergunta contexto :
  length (RAG.gerar_resposta pergunta contexto)
  = (182 + length pergunta + length (texto_do_contexto contexto) `min` 500)%nat
  ∧ (length (RAG.gerar_resposta pergunta contexto) ≤ 682 + length pergunta)%nat.
Proof.
  destruct (gerar_resposta_comprimento pergunta contexto)
    as (n & H1 & H2 & H3 & ->).
  split; lia.
Qed.

(** When the first chunk alone has 500 characters or more, the rest of the
    context does not reach the answer. *)
Theorem gerar_resposta_trunca pergunta (item : RAG.contexto_item) contexto :
  (500 ≤ length (RAG.chunk item))%nat →
  RAG.gerar_resposta pergunta (item :: contexto)
  = RAG.gerar_resposta pergunta [item].
Proof.
  intros Hlen. unfold RAG.gerar_resposta. do 7 f_equal.
  destruct contexto as [|item' contexto]; [done|].
  rewrite !fmap_cons. cbn [str_join fmap list_fmap].
  change (str_join [10%N; 10%N] (RAG.chunk item :: RAG.chunk item' :: (RAG.chunk <$> contexto)))
    with (RAG.chunk item ++ [10%N; 10%N]
          ++ str_join [10%N; 10%N] (RAG.chunk item' :: (RAG.chunk <$> contexto))).
  by rewrite take_app_le by lia.
Qed.

(** [responder_pergunta] fails exactly as the retrieval does, with the same
    error; when the retrieval succeeds it returns the question, the context
    retrieved, and the answer generated from the two, which is at most 682
    characters longer than the question. *)
Theorem responder_pergunta_composicao (t1 t2 t3 t4 : Q) self pergunta (k : Z) :
  match RAG.recuperar_contexto encode l2 self pergunta k with
  | Raise e =>
      RAG.responder_pergunta encode l2 t1 t2 t3 t4 self pergunta k = Raise e
  | Ok contexto =>
      ∃ r, RAG.responder_pergunta encode l2 t1 t2 t3 t4 self pergunta k = Ok r
        ∧ RAG.r_pergunta r = pergunta
        ∧ RAG.r_contexto r = contexto
        ∧ RAG.r_resposta r = RAG.gerar_resposta pergunta contexto
        ∧ (length (RAG.r_resposta r) ≤ 682 + length pergunta)%nat
        ∧ RAG.tempo_total r = ((t2 - t1) + (t4 - t3))%Q
  end.
Proof.
  unfold RAG.responder_pergunta.
  destruct (RAG.recuperar_contexto encode l2 self pergunta k) as [contexto|e];
    [|done].
  eexists. split; [reflexivity|].
  cbn [RAG.r_pergunta RAG.r_contexto RAG.r_resposta RAG.tempo_total].
  split; [done|]. split; [done|]. split; [done|]. split; [|done].
  destruct (gerar_resposta_comprimento pergunta contexto)
    as (n & H1 & _ & _ & ->).
  lia.
Qed.

End resposta.

Lemma gerar_resposta_trunca_witness :
  (500 ≤ length (RAG.chunk (RAG.Item (replicate 500 97%N) ∅ 0 1)))%nat
  ∧ RAG.gerar_resposta (py "q")
      [RAG.Item (replicate 500 97%N) ∅ 0 1; RAG.Item (py "B.") ∅ 1 (1 / 2)]
    = RAG.gerar_resposta (py "q") [RAG.Item (replicate 500 97%N) ∅ 0 1].
Proof.
  assert (500 ≤ length (RAG.chunk (RAG.Item (replicate 500 97%N) ∅ 0 1)))%nat as H.
  { cbn [RAG.chunk]. rewrite length_replicate. lia. }
  split; [exact H|].
  exact (gerar_resposta_trunca (py "q") _ [RAG.Item (py "B.") ∅ 1 (1 / 2)] H).
Defined.

(** ** The search of [exemplo_faiss.py] *)

Section exemplo_faiss.
Context {vec : Type} (encode : list str → list vec) (l2 : vec → vec → Q).
Implicit Types (self : @Audio.AudioEmbeddingSystem vec) (idx : list vec)
  (consulta : str) (frases : list str) (k : Z) (v : vec).

Lemma py_index_erro {A} (l : list A) (i : Z) e :
  py_index l i = Raise e → e = IndexError.
Proof.
  unfold py_index.
  destruct (_ <? 0); [by intros [= <-]|].
  destruct (l !! _); [done | by intros [= <-]].
Qed.

Lemma py_index_fora {A} (l : list A) (i : nat) :
  (length l ≤ i)%nat → py_index l (Z.of_nat i) = Raise IndexError.
Proof.
  intros Hi. unfold py_index.
  destruct (Z.ltb_spec (Z.of_nat i) 0) as [?|_]; [lia|].
  destruct (Z.ltb_spec (Z.of_nat i) 0) as [?|_]; [lia|].
  by rewrite Nat2Z.id, (lookup_ge_None_2 l i Hi).
Qed.

(** Whether an index is in range depends on the length of the list only. *)
Lemma py_index_paralelo {A B} (l1 : list A) (l2' : list B) (i : Z) x :
  length l1 = length l2' →
  py_index l1 i = Ok x → ∃ y, py_index l2' i = Ok y.
Proof.
  intros Hlen. unfold py_index. rewrite <- Hlen.
  set (j := if i <? 0 then i + Z.of_nat (length l1) else i).
  destruct (j <? 0); [done|].
  destruct (l1 !! Z.to_nat j) as [x'|] eqn:E; [|done]. intros _.
  apply lookup_lt_Some in E. rewrite Hlen in E.
  destruct (lookup_lt_is_Some_2 l2' _ E) as [y Hy]. rewrite Hy. by exists y.
Qed.

Lemma mapM_falha {A B} (f : A → res B) (l : list A) e :
  (∃ x, x ∈ l ∧ f x = Raise e) →
  (∀ x e', x ∈ l → f x = Raise e' → e' = e) →
  mapM f l = Raise e.
Proof.
  induction l as [|x0 l IH]; intros (x & Hx & Hfx) Hall.
  - by apply elem_of_nil in Hx.
  - change (f x0 ≫= (λ y, mapM f l ≫= (λ ys, mret (y :: ys))) = Raise e).
    destruct (f x0) as [y|e'] eqn:Hf0.
    + rewrite IH; [done| |].
      * apply elem_of_cons in Hx as [->|Hx]; [congruence|]. by exists x.
      * intros x' e' Hx'. apply Hall. by right.
    + by rewrite (Hall x0 e' ltac:(by left) Hf0).
Qed.

Lemma mapM_projecao {A B C} (f : A → res B) (g : A → res C) (p : B → C)
    (l : list A) :
  (∀ x, g x = f x ≫= (λ r, mret (p r))) →
  mapM g l = mapM f l ≫= (λ rs, mret (p <$> rs)).
Proof.
  intros Hg. induction l as [|x l IH]; [done|].
  change (g x ≫= (λ y, mapM g l ≫= (λ ys, mret (y :: ys)))
          = (f x ≫= (λ y, mapM f l ≫= (λ ys, mret (y :: ys))))
            ≫= (λ rs, mret (p <$> rs))).
  rewrite Hg, IH. destruct (f x) as [y|e]; [|done].
  by destruct (mapM f l).
Qed.

Lemma buscar_similaridade_forma consulta idx frases k v :
  encode [consulta] = [v] →
  0 < k →
  ExemploFaiss.buscar_similaridade encode l2 consulta idx frases k
  = mapM (ExemploFaiss.montar frases)
      (enumerate (faiss.knn l2 idx (Z.to_nat k) v)).
Proof.
  intros Hv Hk. unfold ExemploFaiss.buscar_similaridade, faiss.search.
  rewrite Hv, (proj2 (Z.leb_gt _ _)) by done.
  simpl. by rewrite zip_fst_snd.
Qed.

(** Given an index with more rows than [frases] has texts, a search for all
    the rows (or more) fails with [IndexError]: a label beyond the list is
    read from it. In particular with no texts at all. *)
Theorem buscar_similaridade_frases_curtas consulta idx frases k :
  (∀ ts, length (encode ts) = length ts) →
  (length frases < length idx)%nat →
  Z.of_nat (length idx) ≤ k →
  ExemploFaiss.buscar_similaridade encode l2 consulta idx frases k
  = Raise IndexError.
Proof.
  intros Hrows Hlen Hk.
  pose proof (Hrows [consulta]) as Hq.
  destruct (encode [consulta]) as [|v [|??]] eqn:Hv; try done. clear Hq.
  rewrite (buscar_similaridade_forma consulta idx frases k v) by (done || lia).
  apply mapM_falha.
  - destruct (lookup_lt_is_Some_2 idx (length frases) Hlen) as [x Hx].
    assert ((l2 v x, Z.of_nat (length frases))
            ∈ faiss.knn l2 idx (Z.to_nat k) v) as Hin.
    { rewrite knn_alem by lia. apply elem_of_app. left.
      rewrite merge_sort_Permutation. unfold candidatos.
      by apply (elem_of_lookup_imap_2 (λ i v', (l2 v v', Z.of_nat i))). }
    apply list_elem_of_lookup in Hin as [j Hj].
    exists (Z.of_nat j, (l2 v x, Z.of_nat (length frases))). split.
    + unfold enumerate.
      by apply (elem_of_lookup_imap_2 (λ i h, (Z.of_nat i, h))).
    + unfold ExemploFaiss.montar. by rewrite py_index_fora.
  - intros [pos [d id]] e' _. unfold ExemploFaiss.montar.
    destruct (py_index frases id) eqn:E; [done|].
    intros [= <-]. by apply py_index_erro in E.
Qed.

(** Given the texts and the index of a transcription system,
    [buscar_similaridade] and [buscar_transcricoes] agree: they fail alike,
    and return the same positions, texts, distances and similarities. *)
Theorem buscar_similaridade_concorda self idx consulta k :
  Audio.indice self = Some idx →
  length (Audio.transcricoes self) = length (Audio.metadados self) →
  ExemploFaiss.buscar_similaridade encode l2 consulta idx
    (Audio.transcricoes self) k
  = Audio.buscar_transcricoes encode l2 self consulta k
      ≫= (λ rs : list Audio.resultado, mret (projetar <$> rs)).
Proof.
  intros Hidx Hlen.
  unfold ExemploFaiss.buscar_similaridade, Audio.buscar_transcricoes.
  rewrite Hidx.
  destruct (faiss.search l2 idx (encode [consulta]) k) as [[D I]|e]; [|done].
  change (py_index D 0 ≫= (λ d0, py_index I 0 ≫= (λ i0,
            mapM (ExemploFaiss.montar (Audio.transcricoes self))
                 (enumerate (zip d0 i0))))
          = (py_index D 0 ≫= (λ d0, py_index I 0 ≫= (λ i0,
               mapM (Audio.montar self) (enumerate (zip d0 i0)))))
            ≫= (λ rs, mret (projetar <$> rs))).
  destruct (py_index D 0) as [d0|e]; [|done].
  destruct (py_index I 0) as [i0|e]; [|done].
  apply mapM_projecao. intros [pos [d id]].
  unfold ExemploFaiss.montar, Audio.montar.
  destruct (py_index (Audio.transcricoes self) id) as [t|e] eqn:Et; [|done].
  destruct (py_index_paralelo _ (Audio.metadados self) id t Hlen Et) as [m ->].
  done.
Qed.

End exemplo_faiss.

Lemma buscar_similaridade_frases_curtas_witness :
  (length [py "gato"] < length [4; 8])%nat
  ∧ Z.of_nat (length [4; 8]) ≤ 2
  ∧ ExemploFaiss.buscar_similaridade encode_len l2_len (py "gato") [4; 8]
      [py "gato"] 2 = Raise IndexError.
Proof.
  assert (length [py "gato"] < length [4; 8])%nat as H1 by (simpl; lia).
  assert (Z.of_nat (length [4; 8]) ≤ 2) as H2 by (simpl; lia).
  split; [exact H1|]. split; [exact H2|].
  exact (buscar_similaridade_frases_curtas encode_len l2_len (py "gato") [4; 8]
           [py "gato"] 2 encode_len_linhas H1 H2).
Defined.

Lemma buscar_similaridade_concorda_witness :
  ExemploFaiss.buscar_similaridade encode_len l2_len (py "gato") [4; 8]
    (Audio.transcricoes audio_ex_indexado) 2
  = Audio.buscar_transcricoes encode_len l2_len audio_ex_indexado (py "gato") 2
      ≫= (λ rs : list Audio.resultado, mret (projetar <$> rs)).
Proof.
  apply (buscar_similaridade_concorda encode_len l2_len audio_ex_indexado [4; 8]
           (py "gato") 2); reflexivity.
Defined.

(** ** More on the transcription store *)

Section audio_mais.
Context {vec : Type}.
Implicit Types (σ : heap) (self : @Audio.AudioEmbeddingSystem vec)
  (d : gmap string pyval) (m l : loc).



(** The store only grows: a sequence of calls keeps every transcription
    and every metadata reference at its position, and adds one of each per
    call. *)
Theorem armazem_so_cresce (cs : list Audio.chamada) σ self :
  let st := Audio.executar cs σ self in
  Audio.transcricoes self `prefix_of` Audio.transcricoes st.2
  ∧ Audio.metadados self `prefix_of` Audio.metadados st.2
  ∧ length (Audio.transcricoes st.2)
    = (length (Audio.transcricoes self) + length cs)%nat
  ∧ Audio.transcricoes st.2
    = Audio.transcricoes self ++ (Audio.c_transcricao <$> cs).
Proof.
  revert σ self. induction cs as [|c cs IH]; intros σ self st.
  - subst st. simpl. rewrite app_nil_r. repeat split; [done..|lia].
  - subst st. unfold Audio.executar. cbn [fold_left].
    destruct (adicionar_transcricao_listas (Audio.c_agora c)
      (Audio.c_transcricao c) (Audio.c_metadados c) σ self) as [l Hl].
    destruct (Audio.chamar (σ, self) c) as [σ' self'] eqn:E.
    assert (self' = Audio.Sistema (Audio.transcricoes self ++ [Audio.c_transcricao c])
              (Audio.metadados self ++ [l]) (Audio.indice self)) as ->.
    { unfold Audio.chamar in E. simpl in E. rewrite <- Hl.
      by destruct (Audio.adicionar_transcricao _ _ _ _ _) as [[??]?];
        injection E as _ <-. }
    destruct (IH σ' (Audio.Sistema (Audio.transcricoes self ++ [Audio.c_transcricao c])
      (Audio.metadados self ++ [l]) (Audio.indice self))) as (H1 & H2 & H3 & H4).
    unfold Audio.executar in *. simpl in *.
    split; [by etrans; [apply prefix_app_r|exact H1]|].
    split; [by etrans; [apply prefix_app_r|exact H2]|].
    split; [rewrite H3, length_app; simpl; lia|].
    by rewrite H4, <- app_assoc.
Qed.

End audio_mais.


(** ** Retrieval over documents *)

Section recuperar.
Context {vec : Type} (encode : list str → list vec) (l2 : vec → vec → Q).
Implicit Types (self : @RAG.SistemaRAG vec) (pergunta : str) (k : Z).

Lemma mapM_Forall2 {A B} (g : A → res B) (P : A → B → Prop) (hs : list A) :
  (∀ h, h ∈ hs → ∃ r, g h = Ok r ∧ P h r) →
  ∃ rs, mapM g hs = Ok rs ∧ Forall2 P hs rs.
Proof.
  induction hs as [|h hs IH]; intros Hg.
  - by exists [].
  - destruct (Hg h) as (r & Hr & HP); [by left|].
    destruct IH as (rs & Hrs & HF).
    { intros h' Hh'. apply Hg. by right. }
    exists (r :: rs). split; [|by constructor].
    change (g h ≫= (λ y, mapM g hs ≫= (λ ys, mret (y :: ys))) = Ok (r :: rs)).
    by rewrite Hr, Hrs.
Qed.

Lemma recuperar_contexto_forma self idx pergunta k v :
  RAG.indice self = Some idx →
  encode [pergunta] = [v] →
  0 < k →
  RAG.recuperar_contexto encode l2 self pergunta k
  = mapM (RAG.montar self) (faiss.knn l2 idx (Z.to_nat k) v).
Proof.
  intros Hidx Hv Hk. unfold RAG.recuperar_contexto, faiss.search.
  rewrite Hidx, Hv, (proj2 (Z.leb_gt _ _)) by done.
  simpl. by rewrite zip_fst_snd.
Qed.

(** Documents are added to a new system and the index is built. Then for
    [1 <= k <= n], with [n] the number of chunks, the retrieval returns [k]
    items in order of non-decreasing distance, each one a stored chunk with
    the record stored beside it. *)
Theorem recuperar_contexto_ordenado (ds : list RAG.chamada) self pergunta k :
  (∀ ts, length (encode ts) = length ts) →
  RAG.criar_indice encode (RAG.executar ds RAG.init) = Ok self →
  1 ≤ k ≤ Z.of_nat (length (RAG.chunks self)) →
  ∃ contexto,
    RAG.recuperar_contexto encode l2 self pergunta k = Ok contexto
    ∧ length contexto = Z.to_nat k
    ∧ (∀ (i j : nat) ci cj, (i ≤ j)%nat →
         contexto !! i = Some ci → contexto !! j = Some cj →
         (RAG.distancia ci <= RAG.distancia cj)%Q)
    ∧ ∀ c, c ∈ contexto →
        ∃ i : nat,
          RAG.chunks self !! i = Some (RAG.chunk c)
          ∧ RAG.metadados self !! i = Some (RAG.c_metadados c).
Proof.
  intros Hrows Hc Hk.
  destruct (executar_paralelo ds (RAG.init (vec := vec))) as [Hlen _].
  { split; [done | constructor]. }
  unfold RAG.criar_indice in Hc.
  destruct (RAG.chunks (RAG.executar ds RAG.init)) as [|c0 cs0] eqn:Ecs; [done|].
  injection Hc as <-. cbn [RAG.chunks RAG.metadados] in *.
  set (self := RAG.Sistema _ _ _ _).
  set (idx := encode (c0 :: cs0)).
  assert (length idx = length (c0 :: cs0)) as Hidx by apply Hrows.
  pose proof (Hrows [pergunta]) as Hq.
  destruct (encode [pergunta]) as [|v [|??]] eqn:Hv; try done. clear Hq.
  set (ord := merge_sort faiss.hit_le (candidatos l2 idx v)).
  destruct (knn_dentro l2 idx v (Z.to_nat k)) as [Hknn Hkl]; [lia|].
  fold ord in Hknn.
  assert (ord ≡ₚ candidatos l2 idx v) as Hperm by apply merge_sort_Permutation.
  destruct (mapM_Forall2 (RAG.montar self)
    (λ (h : Q * Z) c, ∃ i : nat,
        RAG.chunks self !! i = Some (RAG.chunk c)
        ∧ RAG.metadados self !! i = Some (RAG.c_metadados c)
        ∧ RAG.distancia c = h.1)
    (take (Z.to_nat k) ord)) as (rs & Hrs & HF).
  { intros h Hh.
    assert (h ∈ candidatos l2 idx v) as Hin.
    { rewrite <- Hperm. by eapply subseteq_take. }
    apply candidatos_elem in Hin as (i & x & Hi & ->).
    apply lookup_lt_Some in Hi.
    destruct (lookup_lt_is_Some_2 (c0 :: cs0) i) as [t Ht]; [lia|].
    destruct (lookup_lt_is_Some_2
      (RAG.metadados (RAG.executar (vec := vec) ds RAG.init)) i)
      as [m Hm]; [lia|].
    eexists. split.
    - unfold RAG.montar. subst self. cbn [RAG.chunks RAG.metadados].
      rewrite (py_index_nat _ i t Ht), (py_index_nat _ i m Hm). done.
    - exists i. by simpl. }
  exists rs. split.
  { rewrite (recuperar_contexto_forma self idx pergunta k v) by (done || lia).
    by rewrite Hknn. }
  split.
  { apply Forall2_length in HF. by rewrite <- HF, <- Hknn. }
  split.
  - intros i j ci cj Hij Hi Hj.
    destruct (Forall2_lookup_r _ _ _ _ _ HF Hi) as (hi & Hhi & _ & _ & _ & ->).
    destruct (Forall2_lookup_r _ _ _ _ _ HF Hj) as (hj & Hhj & _ & _ & _ & ->).
    destruct (decide (i = j)) as [->|Hne].
    { rewrite Hhi in Hhj. injection Hhj as ->. apply Qle_refl. }
    apply hit_le_distancia.
    assert (StronglySorted faiss.hit_le ord) as Hsort.
    { apply StronglySorted_merge_sort; [apply hit_le_trans | apply hit_le_total]. }
    rewrite <- (take_drop (Z.to_nat k) ord) in Hsort.
    apply StronglySorted_app_1_l in Hsort.
    apply (StronglySorted_lookup_lt _ _ Hsort i j); [lia|done..].
  - intros c Hin. apply list_elem_of_lookup in Hin as [j Hj].
    destruct (Forall2_lookup_r _ _ _ _ _ HF Hj) as (h & _ & i & Ht & Hm & _).
    by exists i.
Qed.

End recuperar.

Lemma recuperar_contexto_ordenado_witness :
  RAG.criar_indice encode_len (RAG.executar [RAG.Chamada (py "A.") (py "um") None;
     RAG.Chamada (py "B.") (py "dois") None] RAG.init) = Ok rag_ex_indexado
  ∧ 1 ≤ 2 ≤ Z.of_nat (length (RAG.chunks rag_ex_indexado))
  ∧ ∃ contexto,
    RAG.recuperar_contexto encode_len l2_len rag_ex_indexado (py "A.") 2
      = Ok contexto
    ∧ length contexto = Z.to_nat 2
    ∧ (∀ (i j : nat) ci cj, (i ≤ j)%nat →
         contexto !! i = Some ci → contexto !! j = Some cj →
         (RAG.distancia ci <= RAG.distancia cj)%Q)
    ∧ ∀ c, c ∈ contexto →
        ∃ i : nat,
          RAG.chunks rag_ex_indexado !! i = Some (RAG.chunk c)
          ∧ RAG.metadados rag_ex_indexado !! i = Some (RAG.c_metadados c).
Proof.
  assert (RAG.criar_indice encode_len (RAG.executar
     [RAG.Chamada (py "A.") (py "um") None;
      RAG.Chamada (py "B.") (py "dois") None] RAG.init) = Ok rag_ex_indexado) as H1
    by (vm_compute; reflexivity).
  assert (1 ≤ 2 ≤ Z.of_nat (length (RAG.chunks rag_ex_indexado))) as H2
    by (vm_compute; split; discriminate).
  split; [exact H1|]. split; [exact H2|].
  exact (recuperar_contexto_ordenado encode_len l2_len _ rag_ex_indexado (py "A.")
           2 encode_len_linhas H1 H2).
Defined.
